(** * Live Drawing Timer + Announcer: a shallow embedding of [src/main.py]

    The development follows the layout of the program:
    - utilities ([seconds_to_hhmmss], [Pose]);
    - [TimerEngine], the countdown driven by samples of a monotonic clock;
    - [SoundBank], the cue table with its archive export and import;
    - [RecorderController], the recording of a cue into the bank;
    - [TimerWindow], the session logic that ties them together.

    Python integers are unbounded and are modelled by [Z].  Signals are
    modelled by the list of events a call emits, in emission order; a slot
    connected to a signal is run by the caller on that list, which is exact
    here because every [emit] whose slot touches the emitter is the last
    statement of the emitting method. *)

From Stdlib Require Import ZArith String Ascii List Lia DecimalString Sorted.
From Stdlib Require Import DecimalPos DecimalN.
From stdpp Require Import base numbers list strings gmap.

Set Warnings "-register-all".

Local Open Scope string_scope.
Local Open Scope list_scope.
Local Open Scope Z_scope.

(** ** Utilities *)

(** Decimal digits of a non-negative integer, as Python's [d] presentation
    type prints them. *)
Definition digits (z : Z) : string :=
  NilZero.string_of_uint (N.to_uint (Z.to_N z)).

Fixpoint zeros (n : nat) : string :=
  match n with
  | O => ""
  | S k => String "0" (zeros k)
  end.

(** [f"{z:0<w>d}"]: sign-aware zero padding to a minimum width [w]. *)
Definition fmt_0d (w : nat) (z : Z) : string :=
  if z <? 0
  then
    let ds := digits (- z) in
    String "-" (zeros (Nat.pred w - String.length ds) +:+ ds)
  else
    let ds := digits z in
    zeros (w - String.length ds) +:+ ds.

(** [seconds_to_hhmmss], lines 71-79. *)
Definition seconds_to_hhmmss (total : Z) : string :=
  let total := if total <? 0 then 0 else total in
  let h := total `div` 3600 in
  let m := (total `mod` 3600) `div` 60 in
  let s := total `mod` 60 in
  if 0 <? h
  then fmt_0d 1 h +:+ ":" +:+ fmt_0d 2 m +:+ ":" +:+ fmt_0d 2 s
  else fmt_0d 2 m +:+ ":" +:+ fmt_0d 2 s.

(** The number of colons of a label: one less than the number of its
    fields. *)
Fixpoint colons (s : string) : nat :=
  match s with
  | EmptyString => O
  | String c rest => (if Ascii.eqb c ":" then 1 else 0) + colons rest
  end.

(** [Pose], lines 82-87. *)
Record Pose := mkPose { seconds : Z }.

Definition label (p : Pose) : string := seconds_to_hhmmss (seconds p).

(** ** TimerEngine, lines 246-283

    [time.monotonic()] is modelled by integer clock readings with [hz]
    units to the second, so [int(now - self._last)] is the quotient
    truncated towards zero, [Z.quot].  The readings are arguments: [start]
    takes the one it makes, [_tick] the one of its sample. *)
Module TimerEngine.

Inductive signal : Type :=
| tick_signal (secs : Z)
| finished_signal.

(** The fields of the object; [timer_active] is the state of the [QTimer]
    (200 ms interval) whose [timeout] is connected to [_tick]. *)
Record engine : Type := mkEngine {
  remaining : Z;
  running : bool;
  _last : Z;
  timer_active : bool
}.

Definition init : engine :=
  {| remaining := 0; running := false; _last := 0; timer_active := false |}.

Definition set_remaining (v : Z) (e : engine) : engine :=
  {| remaining := v; running := running e; _last := _last e;
     timer_active := timer_active e |}.
Definition set_running (v : bool) (e : engine) : engine :=
  {| remaining := remaining e; running := v; _last := _last e;
     timer_active := timer_active e |}.
Definition set_last (v : Z) (e : engine) : engine :=
  {| remaining := remaining e; running := running e; _last := v;
     timer_active := timer_active e |}.
Definition set_timer (v : bool) (e : engine) : engine :=
  {| remaining := remaining e; running := running e; _last := _last e;
     timer_active := v |}.

(** [start], lines 259-264. *)
Definition start (secs now : Z) (e : engine) : engine * list signal :=
  let e := set_remaining secs e in
  let e := set_running true e in
  let e := set_last now e in
  let e := set_timer true e in
  (e, [tick_signal (remaining e)]).

(** [stop], lines 266-268. *)
Definition stop (e : engine) : engine :=
  set_timer false (set_running false e).

Section Clock.

Variable hz : Z.

(** [_tick], lines 270-283. *)
Definition _tick (now : Z) (e : engine) : engine * list signal :=
  if negb (running e) then (e, [])
  else
    let dt := (now - _last e) ÷ hz in
    if dt <=? 0 then (e, [])
    else
      let e := set_last now e in
      let e := set_remaining (remaining e - dt) e in
      let ev := [tick_signal (remaining e)] in
      if remaining e <=? 0
      then
        let e := set_running false e in
        let e := set_timer false e in
        (e, ev ++ [finished_signal])
      else (e, ev).

(** One expiry of the [QTimer]: the slot runs only while the timer is
    active. *)
Definition timeout (now : Z) (e : engine) : engine * list signal :=
  if timer_active e then _tick now e else (e, []).

(** The engine left alone (no [stop], no [start]) while the timer expires
    at the clock readings [samples]. *)
Fixpoint run (e : engine) (samples : list Z) : engine * list signal :=
  match samples with
  | [] => (e, [])
  | now :: rest =>
      let '(e1, ev1) := timeout now e in
      let '(e2, ev2) := run e1 rest in
      (e2, ev1 ++ ev2)
  end.

(** Samples of a monotonic clock, the first not before [prev]. *)
Fixpoint monotonic (prev : Z) (samples : list Z) : bool :=
  match samples with
  | [] => true
  | now :: rest => (prev <=? now) && monotonic now rest
  end.

(** Monotonic samples less than one second apart, which is what the
    200 ms timer gives unless the event loop stalls. *)
Fixpoint paced (prev : Z) (samples : list Z) : bool :=
  match samples with
  | [] => true
  | now :: rest => (prev <=? now) && (now <? prev + hz) && paced now rest
  end.

(** [k-1, k-2, ..., 0]. *)
Fixpoint countdown (k : nat) : list Z :=
  match k with
  | O => []
  | S j => Z.of_nat j :: countdown j
  end.

(** [n] samples, one every [step] clock units after [t0]. *)
Definition sampled_every (step t0 : Z) (n : nat) : list Z :=
  map (fun k => t0 + step * Z.of_nat k) (seq 1 n).

(** The events of a countdown from [d] started at [t0] and sampled at
    [samples], after the tick that [start] itself emits. *)
Definition events_after_start (d t0 : Z) (samples : list Z) : list signal :=
  snd (run (fst (start d t0 init)) samples).

(** The property of the specification: exactly the ticks [d-1 .. 0], then
    one completion. *)
Definition counts_down_exactly (d t0 : Z) (samples : list Z) : Prop :=
  events_after_start d t0 samples
  = map tick_signal (countdown (Z.to_nat d)) ++ [finished_signal].

(** The seconds counted off equal the whole seconds on the clock at the
    latest sample: no elapsed time is lost. *)
Definition drift_free (d t0 : Z) (samples : list Z) : Prop :=
  let e := fst (run (fst (start d t0 init)) samples) in
  d - remaining e = (List.last samples t0 - t0) ÷ hz.

End Clock.

End TimerEngine.

(** ** The cue table, lines 59-66 *)

Definition CUES : list (string * string) :=
  [ ("session_start", "Session Start");
    ("pose_start", "Pose Start");
    ("five_min", "5 Minutes Remaining");
    ("one_min", "1 Minute Remaining");
    ("thirty_sec", "30 Seconds Remaining");
    ("over", "Over") ].

(** ** Library values the sound bank works with *)

(** *** [pathlib]

    A [Path] is the list of its components, as [PurePosixPath.parts]
    gives it: an absolute path starts with the component ["/"], no other
    component holds a slash, is empty or is a single dot.  Names are
    ASCII. *)
Abbreviation Path := (list string).

Definition is_slash (c : ascii) : bool := Ascii.eqb c "/".

Fixpoint has_slash (s : string) : bool :=
  match s with
  | EmptyString => false
  | String c rest => is_slash c || has_slash rest
  end.

Fixpoint split_slash (s : string) : list string :=
  match s with
  | EmptyString => [""]
  | String c rest =>
      if is_slash c then "" :: split_slash rest
      else match split_slash rest with
           | hd :: tl => String c hd :: tl
           | [] => [String c ""]
           end
  end.

Definition is_component (c : string) : bool :=
  negb (String.eqb c "") && negb (String.eqb c ".").

(** [Path(s)]: the components of a string. *)
Definition parse_parts (s : string) : Path :=
  (match s with
   | String c _ => if is_slash c then ["/"] else []
   | EmptyString => []
   end) ++ filter (fun c => Is_true (is_component c)) (split_slash s).

Definition is_root (c : string) : bool := String.eqb c "/".

(** [p / s]: an absolute right operand replaces the left one. *)
Definition path_div (p : Path) (s : string) : Path :=
  match parse_parts s with
  | c :: rest => if is_root c then c :: rest else p ++ c :: rest
  | [] => p
  end.

(** [p.name]: the last component, empty for the root and the empty path. *)
Definition path_name (p : Path) : string :=
  match p with
  | [] => ""
  | [c] => if is_root c then "" else c
  | _ => List.last p ""
  end.

Fixpoint rfind_dot (s : string) : option nat :=
  match s with
  | EmptyString => None
  | String c rest =>
      match rfind_dot rest with
      | Some i => Some (S i)
      | None => if Ascii.eqb c "." then Some O else None
      end
  end.

Fixpoint string_drop (n : nat) (s : string) : string :=
  match n, s with
  | O, _ => s
  | S k, EmptyString => ""
  | S k, String _ rest => string_drop k rest
  end.

(** [p.suffix]: the name from its last dot on, if that dot is neither the
    first nor the last character. *)
Definition path_suffix (p : Path) : string :=
  let name := path_name p in
  match rfind_dot name with
  | Some i =>
      if (0 <? i)%nat && (i <? String.length name - 1)%nat
      then string_drop i name
      else ""
  | None => ""
  end.

Definition lower_ascii (c : ascii) : ascii :=
  let n := nat_of_ascii c in
  if (65 <=? n)%nat && (n <=? 90)%nat then ascii_of_nat (n + 32) else c.

(** [s.lower()]. *)
Fixpoint str_lower (s : string) : string :=
  match s with
  | EmptyString => ""
  | String c rest => String (lower_ascii c) (str_lower rest)
  end.

Fixpoint string_take (n : nat) (s : string) : string :=
  match n, s with
  | O, _ => ""
  | S k, EmptyString => ""
  | S k, String c rest => String c (string_take k rest)
  end.

(** The suffixes [with_suffix] accepts: empty, or a dot followed by
    something, without a slash. *)
Definition valid_suffix (suffix : string) : bool :=
  negb (has_slash suffix)
  && match suffix with
     | EmptyString => true
     | String c rest => Ascii.eqb c "." && negb (String.eqb rest "")
     end.

(** [p.with_suffix(suffix)]: the suffix of the name replaced, or added
    when the name has none; [None] stands for the [ValueError] of an
    invalid suffix or of a path with an empty name. *)
Definition with_suffix (p : Path) (suffix : string) : option Path :=
  if negb (valid_suffix suffix) then None
  else
    let name := path_name p in
    if String.eqb name "" then None
    else
      let old_suffix := path_suffix p in
      let stem :=
        string_take (String.length name - String.length old_suffix) name in
      Some (removelast p ++ [stem +:+ suffix]).

(** The type invariant of a [Path]. *)
Definition wf_part (c : string) : bool :=
  negb (has_slash c) && is_component c.

Definition wf_path (p : Path) : bool :=
  match p with
  | c :: rest => if is_root c then forallb wf_part rest else forallb wf_part p
  | [] => true
  end.

(** *** Files

    The file system is a finite map from paths to the bytes of the regular
    files; [p.exists()] is membership, so what a cue is registered to is a
    regular file or nothing.  Writing a file always succeeds and [mkdir]
    changes nothing: directories, permissions and other failures of the
    operating system are outside the model. *)
Abbreviation bytes := (list Byte.byte).
Abbreviation filesystem := (gmap (list string) (list Byte.byte)).

(** *** [json]

    A parsed JSON document.  Objects keep the insertion order of a Python
    [dict] and have no duplicate key; numbers are integers (nothing here
    reads a number). *)
Inductive json : Type :=
| JNull
| JBool (b : bool)
| JNum (z : Z)
| JStr (s : string)
| JArr (items : list json)
| JObj (members : list (string * json)).

(** [d.get(k)] on the members of a [dict]. *)
Fixpoint dict_get (members : list (string * json)) (k : string) : option json :=
  match members with
  | [] => None
  | (k', v) :: rest => if String.eqb k' k then Some v else dict_get rest k
  end.

(** [d[k] = v]: in place for a key that is there, at the end otherwise. *)
Fixpoint dict_set (members : list (string * json)) (k : string) (v : json)
  : list (string * json) :=
  match members with
  | [] => [(k, v)]
  | (k', v') :: rest =>
      if String.eqb k' k then (k', v) :: rest
      else (k', v') :: dict_set rest k v
  end.

(** Truth value of a Python object that came out of [json.loads]. *)
Definition truthy (v : json) : bool :=
  match v with
  | JNull => false
  | JBool b => b
  | JNum z => negb (z =? 0)
  | JStr s => negb (String.eqb s "")
  | JArr items => negb (Nat.eqb (List.length items) 0)
  | JObj members => negb (Nat.eqb (List.length members) 0)
  end.

(** *** [zipfile]

    The entries of a container in the order they were written.  A lookup
    by name finds the entry written last under it, as [ZipFile.NameToInfo]
    does. *)
Abbreviation zipfile := (list (string * list Byte.byte)).

Definition namelist (zf : zipfile) : list string := map fst zf.

Fixpoint zf_read (zf : zipfile) (name : string) : option bytes :=
  match zf with
  | [] => None
  | (n, data) :: rest =>
      match zf_read rest name with
      | Some later => Some later
      | None => if String.eqb n name then Some data else None
      end
  end.

(** [v in zf.namelist()]: only a string equals a name. *)
Definition in_namelist (v : json) (zf : zipfile) : bool :=
  match v with
  | JStr s => bool_decide (s ∈ namelist zf)
  | _ => false
  end.

(** Exceptions the import can raise. *)
Inductive exn : Type :=
| KeyError          (* no such entry in the container *)
| ValueError        (* [UnicodeDecodeError] or [json.JSONDecodeError] *)
| AttributeError.   (* [.get] on a value that is not a [dict] *)

(** [v.get(k, default)] on a parsed value. *)
Definition py_get (v : json) (k : string) (default : json) : exn + json :=
  match v with
  | JObj members => inr (match dict_get members k with
                         | Some x => x
                         | None => default
                         end)
  | _ => inl AttributeError
  end.

(** ** SoundBank, lines 92-157 *)
Module SoundBank.

(** [cue_files] is the dictionary of the source.  [_effects] keeps, for
    each cue, the source loaded into its [QSoundEffect] ([None] for the
    empty [QUrl]). *)
Record bank : Type := mkBank {
  base_dir : Path;
  cue_files : gmap string (option (list string));
  _effects : gmap string (option (list string))
}.

(** [__init__], lines 93-105. *)
Definition new (base : Path) : bank :=
  {| base_dir := base;
     cue_files := list_to_map (map (fun cue => (fst cue, None)) CUES);
     _effects := list_to_map (map (fun cue => (fst cue, None)) CUES) |}.

Definition exists_ (fs : filesystem) (p : Path) : bool :=
  bool_decide (is_Some (fs !! p)).

(** [set_cue_file], lines 107-114. *)
Definition set_cue_file (fs : filesystem) (cue_key : string)
    (path : option Path) (b : bank) : bank :=
  let files := <[cue_key := path]> (cue_files b) in
  let effects :=
    match _effects b !! cue_key with
    | Some _ =>
        match path with
        | Some p =>
            if exists_ fs p then <[cue_key := Some p]> (_effects b)
            else <[cue_key := None]> (_effects b)
        | None => <[cue_key := None]> (_effects b)
        end
    | None => _effects b
    end in
  {| base_dir := base_dir b; cue_files := files; _effects := effects |}.

(** [get_cue_file], lines 116-117: a missing key and a [None] value both
    give [None]. *)
Definition get_cue_file (b : bank) (cue_key : string) : option Path :=
  match cue_files b !! cue_key with
  | Some path => path
  | None => None
  end.

(** [play], lines 119-124: whether the sound is triggered. *)
Definition play (fs : filesystem) (b : bank) (cue_key : string) : bool :=
  match _effects b !! cue_key, get_cue_file b cue_key with
  | Some _, Some p => exists_ fs p
  | _, _ => false
  end.

Section Codec.

(** [json.dumps(_, indent=2)] followed by the UTF-8 encoding of
    [writestr], and [bytes.decode("utf-8")] followed by [json.loads];
    [None] stands for the [ValueError] either of the two raises. *)
Variable json_dumps : json -> bytes.
Variable json_loads : bytes -> option json.

(** One turn of the loop of [export_soundbank], lines 131-138.  The
    archive name has no slash, so [zf.write] stores the file under that
    very name. *)
Definition export_cue (fs : filesystem) (b : bank)
    (acc : zipfile * list (string * json)) (cue : string * string)
  : zipfile * list (string * json) :=
  let '(zf, cues) := acc in
  let cue_key := fst cue in
  match get_cue_file b cue_key with
  | Some src =>
      match fs !! src with
      | Some data =>
          let arc_name := cue_key +:+ str_lower (path_suffix src) in
          (zf ++ [(arc_name, data)], dict_set cues cue_key (JStr arc_name))
      | None => (zf, dict_set cues cue_key JNull)
      end
  | None => (zf, dict_set cues cue_key JNull)
  end.

(** The manifest around the cue dictionary, line 128. *)
Definition manifest_of (cues : list (string * json)) : json :=
  JObj [("version", JNum 1); ("cues", JObj cues)].

(** [export_soundbank], lines 126-140: the container that is written. *)
Definition export_soundbank (fs : filesystem) (b : bank) : zipfile :=
  let '(zf, cues) := fold_left (export_cue fs b) CUES ([], []) in
  zf ++ [("manifest.json", json_dumps (manifest_of cues))].

(** One turn of the loop of [import_soundbank], lines 151-157, on the
    file system and the bank. *)
Definition import_cue (zf : zipfile) (cues : json) (target_dir : Path)
    (st : filesystem * bank) (cue : string * string)
  : exn + filesystem * bank :=
  let '(fs, b) := st in
  let cue_key := fst cue in
  match py_get cues cue_key JNull with
  | inl e => inl e
  | inr arc_name =>
      if truthy arc_name && in_namelist arc_name zf
      then
        match arc_name with
        | JStr name =>
            let dest := path_div target_dir (path_name (parse_parts name)) in
            match zf_read zf name with
            | Some data =>
                let fs := <[dest := data]> fs in
                inr (fs, set_cue_file fs cue_key (Some dest) b)
            | None => inl KeyError
            end
        | _ => inr (fs, b)
        end
      else inr (fs, b)
  end.

(** The loop itself.  An exception leaves the state as the turns before
    it made it. *)
Fixpoint import_loop (zf : zipfile) (cues : json) (target_dir : Path)
    (st : filesystem * bank) (todo : list (string * string))
  : (filesystem * bank) * option exn :=
  match todo with
  | [] => (st, None)
  | cue :: rest =>
      match import_cue zf cues target_dir st cue with
      | inl e => (st, Some e)
      | inr st' => import_loop zf cues target_dir st' rest
      end
  end.

(** [import_soundbank], lines 142-157.  [stamp] is the string
    [time.strftime] returns.  The result is the state the call leaves and
    the exception it raised, if any. *)
Definition import_soundbank (stamp : string) (zf : zipfile)
    (st : filesystem * bank) : (filesystem * bank) * option exn :=
  match zf_read zf "manifest.json" with
  | None => (st, Some KeyError)
  | Some raw =>
      match json_loads raw with
      | None => (st, Some ValueError)
      | Some manifest =>
          match py_get manifest "cues" (JObj []) with
          | inl e => (st, Some e)
          | inr cues =>
              let target_dir :=
                path_div (base_dir (snd st)) ("soundbank_" +:+ stamp) in
              import_loop zf cues target_dir st CUES
          end
      end
  end.


End Codec.

(** The entry the export writes for a cue: its archive name and the bytes
    of the registered file, if a file is registered and is on disk. *)
Definition arc_entry (fs : filesystem) (b : bank) (cue_key : string)
  : option (string * bytes) :=
  match get_cue_file b cue_key with
  | Some src =>
      match fs !! src with
      | Some data => Some (cue_key +:+ str_lower (path_suffix src), data)
      | None => None
      end
  | None => None
  end.

Definition manifest_value (fs : filesystem) (b : bank) (cue_key : string)
  : json :=
  match arc_entry fs b cue_key with
  | Some (arc_name, _) => JStr arc_name
  | None => JNull
  end.

Definition exported_cues (fs : filesystem) (b : bank)
  : list (string * json) :=
  map (fun cue => (fst cue, manifest_value fs b (fst cue))) CUES.

Definition exported_assets (fs : filesystem) (b : bank) : zipfile :=
  omap (fun cue => arc_entry fs b (fst cue)) CUES.

(** The registered paths of the six cues are well-formed paths. *)
Definition wf_bank (b : bank) : bool :=
  forallb (fun cue => match get_cue_file b (fst cue) with
                      | Some src => wf_path src
                      | None => true
                      end) CUES.


(** The container entry a manifest value names: the value must be a
    non-empty string that is the name of an entry. *)
Definition present_name (zf : zipfile) (v : json) : option string :=
  match v with
  | JStr name =>
      if negb (String.eqb name "") && bool_decide (name ∈ namelist zf)
      then Some name
      else None
  | _ => None
  end.

(** What one turn of the import loop does when [cues] is a dictionary. *)
Definition import_effect (zf : zipfile) (members : list (string * json))
    (target_dir : Path) (st : filesystem * bank) (cue : string * string)
  : filesystem * bank :=
  match dict_get members (fst cue) ≫= present_name zf with
  | Some name =>
      let dest := path_div target_dir (path_name (parse_parts name)) in
      let fs := <[dest := default [] (zf_read zf name)]> (fst st) in
      (fs, set_cue_file fs (fst cue) (Some dest) (snd st))
  | None => st
  end.

(** Line 57. *)
Definition SOUNDBANK_EXT : string := "soundbank".

(** The first line of [export_soundbank], line 127: the file the
    container is written to. *)
Definition export_path (out_path : Path) : option Path :=
  with_suffix out_path ("." +:+ SOUNDBANK_EXT).

(** The bank has a sound effect for each of the six cues and for nothing
    else, as [__init__] leaves it. *)
Definition effects_ready (b : bank) : Prop :=
  forall k : string, is_Some (_effects b !! k) <-> k ∈ map fst CUES.

End SoundBank.


(** [str(z)] for an integer. *)
Definition py_str (z : Z) : string :=
  if z <? 0 then String "-" (digits (- z)) else digits z.

(** ** A JSON codec to run the archive functions on

    The properties of the sound bank are proved for any codec.  The one
    here gives the examples something to compute with: it prints as
    [json.dumps(_, indent=2)] does and reads documents whose strings have
    no escape and whose numbers are integers; what it accepts it reads as
    [json.loads] does. *)
Module Codec.

Definition dquote : ascii := "034".
Definition newline : ascii := "010".

Definition quoted (s : string) : string :=
  String dquote (s +:+ String dquote "").

Fixpoint spaces (n : nat) : string :=
  match n with
  | O => ""
  | S k => String " " (spaces k)
  end.

Fixpoint dumps (indent : nat) (v : json) : string :=
  match v with
  | JNull => "null"
  | JBool true => "true"
  | JBool false => "false"
  | JNum z => py_str z
  | JStr s => quoted s
  | JArr [] => "[]"
  | JArr items =>
      String "[" (String newline
        ((fix go (l : list json) : string :=
            match l with
            | [] => ""
            | [x] => spaces (indent + 2) +:+ dumps (indent + 2) x
            | x :: rest =>
                spaces (indent + 2) +:+ dumps (indent + 2) x
                +:+ String "," (String newline (go rest))
            end) items
         +:+ String newline (spaces indent +:+ "]")))
  | JObj [] => "{}"
  | JObj members =>
      String "{" (String newline
        ((fix go (l : list (string * json)) : string :=
            match l with
            | [] => ""
            | [(k, x)] =>
                spaces (indent + 2) +:+ quoted k +:+ ": "
                +:+ dumps (indent + 2) x
            | (k, x) :: rest =>
                spaces (indent + 2) +:+ quoted k +:+ ": "
                +:+ dumps (indent + 2) x
                +:+ String "," (String newline (go rest))
            end) members
         +:+ String newline (spaces indent +:+ "}")))
  end.

Definition json_dumps (v : json) : bytes :=
  list_byte_of_string (dumps 0 v).

Definition is_ws (c : ascii) : bool :=
  Ascii.eqb c " " || Ascii.eqb c newline || Ascii.eqb c "009"
  || Ascii.eqb c "013".

Fixpoint skip_ws (s : string) : string :=
  match s with
  | String c rest => if is_ws c then skip_ws rest else s
  | EmptyString => s
  end.

Definition is_digit (c : ascii) : bool :=
  let n := nat_of_ascii c in (48 <=? n)%nat && (n <=? 57)%nat.

Fixpoint take_digits (s : string) : string * string :=
  match s with
  | String c rest =>
      if is_digit c
      then let '(ds, tl) := take_digits rest in (String c ds, tl)
      else ("", s)
  | EmptyString => ("", s)
  end.

(** An integer literal; a leading zero, a fraction or an exponent is
    refused. *)
Definition read_nat (s : string) : option (Z * string) :=
  let '(ds, tl) := take_digits s in
  match ds with
  | EmptyString => None
  | String "0" (String _ _) => None
  | _ =>
      match tl with
      | String "." _ | String "e" _ | String "E" _ => None
      | _ =>
          match NilEmpty.uint_of_string ds with
          | Some u => Some (Z.of_uint u, tl)
          | None => None
          end
      end
  end.

(** The characters up to the closing quote; a backslash is refused. *)
Fixpoint read_string (s : string) : option (string * string) :=
  match s with
  | EmptyString => None
  | String c rest =>
      if Ascii.eqb c dquote then Some ("", rest)
      else if Ascii.eqb c "\" then None
      else match read_string rest with
           | Some (body, tl) => Some (String c body, tl)
           | None => None
           end
  end.

Definition expect (word : string) (v : json) (s : string)
  : option (json * string) :=
  if String.prefix word s
  then Some (v, string_drop (String.length word) s)
  else None.

Fixpoint read_value (fuel : nat) (s : string) : option (json * string) :=
  match fuel with
  | O => None
  | S fuel =>
      match skip_ws s with
      | String "n" _ as t => expect "null" JNull t
      | String "t" _ as t => expect "true" (JBool true) t
      | String "f" _ as t => expect "false" (JBool false) t
      | String "-" rest =>
          match read_nat rest with
          | Some (z, tl) => Some (JNum (- z), tl)
          | None => None
          end
      | String "[" rest =>
          match skip_ws rest with
          | String "]" tl => Some (JArr [], tl)
          | t => read_items fuel [] t
          end
      | String "{" rest =>
          match skip_ws rest with
          | String "}" tl => Some (JObj [], tl)
          | t => read_members fuel [] t
          end
      | String c rest as t =>
          if Ascii.eqb c dquote
          then match read_string rest with
               | Some (body, tl) => Some (JStr body, tl)
               | None => None
               end
          else match read_nat t with
               | Some (z, tl) => Some (JNum z, tl)
               | None => None
               end
      | EmptyString => None
      end
  end
with read_items (fuel : nat) (acc : list json) (s : string)
  : option (json * string) :=
  match fuel with
  | O => None
  | S fuel =>
      match read_value fuel s with
      | Some (v, tl) =>
          match skip_ws tl with
          | String "," tl' => read_items fuel (acc ++ [v]) tl'
          | String "]" tl' => Some (JArr (acc ++ [v]), tl')
          | _ => None
          end
      | None => None
      end
  end
with read_members (fuel : nat) (acc : list (string * json)) (s : string)
  : option (json * string) :=
  match fuel with
  | O => None
  | S fuel =>
      match skip_ws s with
      | String c rest =>
          if Ascii.eqb c dquote
          then
            match read_string rest with
            | Some (k, tl) =>
                match skip_ws tl with
                | String ":" tl' =>
                    match read_value fuel tl' with
                    | Some (v, tl'') =>
                        match skip_ws tl'' with
                        | String "," t => read_members fuel (dict_set acc k v) t
                        | String "}" t => Some (JObj (dict_set acc k v), t)
                        | _ => None
                        end
                    | None => None
                    end
                | _ => None
                end
            | None => None
            end
          else None
      | EmptyString => None
      end
  end.

Definition loads (s : string) : option json :=
  match read_value (S (String.length s)) s with
  | Some (v, tl) =>
      match skip_ws tl with
      | EmptyString => Some v
      | _ => None
      end
  | None => None
  end.

Definition json_loads (raw : bytes) : option json :=
  loads (string_of_list_byte raw).

End Codec.

(** ** RecorderController, lines 162-241

    The capture itself is the host's: [start_recording] takes the value
    of [int(time.time())], and [stop_recording] the file system as the
    recorder has left it.  The output location is kept as the path it was
    set to. *)
Module RecorderController.

(** [cue_combo] is the [currentData()] of the combo box: the key of the
    selected cue. *)
Record recorder : Type := mkRecorder {
  cue_combo : string;
  output_location : Path;
  btn_record_enabled : bool;
  btn_stop_enabled : bool;
  status : string
}.

(** [__init__], lines 163-204: the first cue is the one selected. *)
Definition init : recorder :=
  {| cue_combo := "session_start"; output_location := [];
     btn_record_enabled := true; btn_stop_enabled := false;
     status := "Using system default microphone." |}.



(** [stop_recording], lines 221-234. *)
Definition stop_recording (fs : filesystem) (b : SoundBank.bank) (r : recorder)
  : recorder * SoundBank.bank :=
  let cue_key := cue_combo r in
  let out_path := output_location r in
  if SoundBank.exists_ fs out_path
  then
    ({| cue_combo := cue_combo r; output_location := output_location r;
        btn_record_enabled := true; btn_stop_enabled := false;
        status := "Saved: " +:+ path_name out_path |},
     SoundBank.set_cue_file fs cue_key (Some out_path) b)
  else
    ({| cue_combo := cue_combo r; output_location := output_location r;
        btn_record_enabled := true; btn_stop_enabled := false;
        status := "Recording failed." |}, b).

(** [play_selected], lines 236-238: whether a sound is triggered. *)
Definition play_selected (fs : filesystem) (b : SoundBank.bank) (r : recorder)
  : bool :=
  SoundBank.play fs b (cue_combo r).

(** [_on_error], lines 240-241. *)
Definition _on_error (err_str : string) (r : recorder) : recorder :=
  {| cue_combo := cue_combo r; output_location := output_location r;
     btn_record_enabled := btn_record_enabled r;
     btn_stop_enabled := btn_stop_enabled r;
     status := "Recorder error: " +:+ err_str |}.

End RecorderController.

(** ** TimerWindow, lines 288-445: the session logic *)

(** [l[i]] on a Python list: negative indices count from the end, and
    [None] stands for [IndexError]. *)
Definition py_index {A : Type} (l : list A) (i : Z) : option A :=
  let n := Z.of_nat (List.length l) in
  if (0 <=? i) && (i <? n) then l !! Z.to_nat i
  else if (- n <=? i) && (i <? 0) then l !! Z.to_nat (n + i)
  else None.

Module TimerWindow.

(** What a slot makes observable outside the window: the calls of
    [soundbank.play] and the signals of the engine, in order. *)
Inductive event : Type :=
| played (cue_key : string)
| emitted (sig : TimerEngine.signal).

(** The fields the session logic reads and writes.  The widgets are
    their values: [display] and [pose_info] the texts of the labels,
    [spin_min] and [spin_sec] the values of the spin boxes, [pose_list]
    the items of the list widget, [chk_auto_advance] the check box. *)
Record window : Type := mkWindow {
  engine : TimerEngine.engine;
  poses : list Pose;
  current_index : Z;
  display : string;
  pose_info : string;
  spin_min : Z;
  spin_sec : Z;
  pose_list : list string;
  chk_auto_advance : bool
}.

(** [__init__], lines 289-334. *)
Definition init : window :=
  {| engine := TimerEngine.init; poses := []; current_index := -1;
     display := "00:00"; pose_info := "Idle"; spin_min := 5; spin_sec := 0;
     pose_list := []; chk_auto_advance := true |}.

Definition set_engine (v : TimerEngine.engine) (w : window) : window :=
  {| engine := v; poses := poses w; current_index := current_index w;
     display := display w; pose_info := pose_info w; spin_min := spin_min w;
     spin_sec := spin_sec w; pose_list := pose_list w;
     chk_auto_advance := chk_auto_advance w |}.
Definition set_poses (v : list Pose) (w : window) : window :=
  {| engine := engine w; poses := v; current_index := current_index w;
     display := display w; pose_info := pose_info w; spin_min := spin_min w;
     spin_sec := spin_sec w; pose_list := pose_list w;
     chk_auto_advance := chk_auto_advance w |}.
Definition set_current_index (v : Z) (w : window) : window :=
  {| engine := engine w; poses := poses w; current_index := v;
     display := display w; pose_info := pose_info w; spin_min := spin_min w;
     spin_sec := spin_sec w; pose_list := pose_list w;
     chk_auto_advance := chk_auto_advance w |}.
Definition set_display (v : string) (w : window) : window :=
  {| engine := engine w; poses := poses w; current_index := current_index w;
     display := v; pose_info := pose_info w; spin_min := spin_min w;
     spin_sec := spin_sec w; pose_list := pose_list w;
     chk_auto_advance := chk_auto_advance w |}.
Definition set_pose_info (v : string) (w : window) : window :=
  {| engine := engine w; poses := poses w; current_index := current_index w;
     display := display w; pose_info := v; spin_min := spin_min w;
     spin_sec := spin_sec w; pose_list := pose_list w;
     chk_auto_advance := chk_auto_advance w |}.
Definition set_pose_list (v : list string) (w : window) : window :=
  {| engine := engine w; poses := poses w; current_index := current_index w;
     display := display w; pose_info := pose_info w; spin_min := spin_min w;
     spin_sec := spin_sec w; pose_list := v;
     chk_auto_advance := chk_auto_advance w |}.

(** The user setting the two spin boxes. *)
Definition set_spins (minutes secs : Z) (w : window) : window :=
  {| engine := engine w; poses := poses w; current_index := current_index w;
     display := display w; pose_info := pose_info w; spin_min := minutes;
     spin_sec := secs; pose_list := pose_list w;
     chk_auto_advance := chk_auto_advance w |}.

(** [update_display], lines 420-421, the slot of [tick_signal]. *)
Definition update_display (secs : Z) (w : window) : window :=
  set_display (seconds_to_hhmmss secs) w.

(** [add_pose], lines 384-389. *)
Definition add_pose (w : window) : window :=
  let total := spin_min w * 60 + spin_sec w in
  if total <=? 0 then w
  else
    let w := set_poses (poses w ++ [mkPose total]) w in
    set_pose_list (pose_list w ++ [seconds_to_hhmmss total]) w.

(** The slots run for the signals [TimerEngine.start] emits; it emits
    [tick_signal] only. *)
Fixpoint on_start_signals (sigs : list TimerEngine.signal) (w : window)
  : window :=
  match sigs with
  | TimerEngine.tick_signal secs :: rest =>
      on_start_signals rest (update_display secs w)
  | _ => w
  end.

(** [start_pose], lines 398-402; [now] is the clock reading of
    [engine.start]. *)
Definition start_pose (now : Z) (w : window) : option (window * list event) :=
  match py_index (poses w) (current_index w) with
  | None => None
  | Some pose =>
      let w := set_pose_info ("Pose " +:+ py_str (current_index w + 1)) w in
      let '(e, sigs) := TimerEngine.start (seconds pose) now (engine w) in
      let w := on_start_signals sigs (set_engine e w) in
      Some (w, played "pose_start" :: map emitted sigs)
  end.

(** [start_session], lines 391-396. *)
Definition start_session (now : Z) (w : window)
  : option (window * list event) :=
  match poses w with
  | [] => Some (w, [])
  | _ =>
      let w := set_current_index 0 w in
      match start_pose now w with
      | None => None
      | Some (w, evs) => Some (w, played "session_start" :: evs)
      end
  end.

(** [next_pose], lines 404-407. *)
Definition next_pose (now : Z) (w : window) : option (window * list event) :=
  if current_index w <? Z.of_nat (List.length (poses w)) - 1
  then start_pose now (set_current_index (current_index w + 1) w)
  else Some (w, []).

(** [on_pose_finished], lines 409-418, the slot of [finished_signal]. *)
Definition on_pose_finished (now : Z) (w : window)
  : option (window * list event) :=
  if chk_auto_advance w
  then
    if current_index w <? Z.of_nat (List.length (poses w)) - 1
    then
      match start_pose now (set_current_index (current_index w + 1) w) with
      | None => None
      | Some (w, evs) => Some (w, played "over" :: evs)
      end
    else Some (set_pose_info "Session Complete" w, [played "over"])
  else Some (set_pose_info "Pose Finished (Manual Advance)" w, [played "over"]).

(** The slots run for the signals of one [_tick], in emission order;
    [now'] is the clock reading a restart makes. *)
Fixpoint on_tick_signals (now' : Z) (sigs : list TimerEngine.signal)
    (w : window) : option (window * list event) :=
  match sigs with
  | [] => Some (w, [])
  | TimerEngine.tick_signal secs :: rest =>
      match on_tick_signals now' rest (update_display secs w) with
      | None => None
      | Some (w, evs) =>
          Some (w, emitted (TimerEngine.tick_signal secs) :: evs)
      end
  | TimerEngine.finished_signal :: rest =>
      match on_pose_finished now' w with
      | None => None
      | Some (w, evs) =>
          match on_tick_signals now' rest w with
          | None => None
          | Some (w, evs') =>
              Some (w, emitted TimerEngine.finished_signal :: evs ++ evs')
          end
      end
  end.

(** One expiry of the engine's timer inside the window: [_tick] at the
    reading [now], then the connected slots. *)
Definition on_timeout (hz : Z) (times : Z * Z) (w : window)
  : option (window * list event) :=
  let '(now, now') := times in
  let '(e, sigs) := TimerEngine.timeout hz now (engine w) in
  on_tick_signals now' sigs (set_engine e w).

(** The window left to the timer for a list of expiries. *)
Fixpoint run (hz : Z) (samples : list (Z * Z)) (w : window)
  : option (window * list event) :=
  match samples with
  | [] => Some (w, [])
  | times :: rest =>
      match on_timeout hz times w with
      | None => None
      | Some (w, evs) =>
          match run hz rest w with
          | None => None
          | Some (w, evs') => Some (w, evs ++ evs')
          end
      end
  end.

(** [start_session] at the reading [now], then the timer expiring at
    [expiries]. *)
Definition session (hz now : Z) (expiries : list (Z * Z)) (w : window)
  : option (window * list event) :=
  match start_session now w with
  | None => None
  | Some (w, evs) =>
      match run hz expiries w with
      | None => None
      | Some (w, evs') => Some (w, evs ++ evs')
      end
  end.

(** The display shows the remaining time of the engine. *)
Definition shows_remaining (w : window) : Prop :=
  display w = seconds_to_hhmmss (TimerEngine.remaining (engine w)).

(** The index is [-1] or the index of a pose. *)
Definition index_in_range (w : window) : Prop :=
  -1 <= current_index w < Z.of_nat (List.length (poses w)).

(** Expiries of the timer, each with the reading a restart in its slot
    makes: every expiry comes after the readings before it and less than
    a second after the expiry before it, and its slot reads the clock
    less than a second later. *)
Fixpoint paced_expiries (hz lo hi : Z) (expiries : list (Z * Z)) : bool :=
  match expiries with
  | [] => true
  | (now, now') :: rest =>
      (hi <=? now) && (now <? lo + hz) && (now <=? now') && (now' <? now + hz)
      && paced_expiries hz now now' rest
  end.

(** What one pose of [d] seconds makes observable when it runs to its
    end: [pose_start], the ticks [d, d-1, ..., 0], the completion,
    [over]. *)
Definition pose_events (d : Z) : list event :=
  played "pose_start"
  :: map emitted
       (map TimerEngine.tick_signal (d :: TimerEngine.countdown (Z.to_nat d))
        ++ [TimerEngine.finished_signal])
  ++ [played "over"].

(** The seconds allowed to a session for the property below: twice the
    duration of each pose, and one more for each. *)
Definition session_budget (durations : list Z) : Z :=
  fold_right (fun d acc => 2 * d + 1 + acc) 0 durations.

(** A whole session over poses of the given durations. *)
Definition session_events (durations : list Z) : list event :=
  played "session_start" :: concat (map pose_events durations).

(** [save_soundbank], lines 425-434, on the file name the dialog
    returns: the file written and its content, [None] when the dialog
    was cancelled; [inl] stands for the [ValueError] of [with_suffix]. *)
Definition save_soundbank (json_dumps : json -> bytes) (fp : string)
    (fs : filesystem) (b : SoundBank.bank)
  : exn + option (Path * zipfile) :=
  if String.eqb fp "" then inr None
  else
    match SoundBank.export_path (parse_parts fp) with
    | None => inl ValueError
    | Some out_path =>
        inr (Some (out_path, SoundBank.export_soundbank json_dumps fs b))
    end.

End TimerWindow.

(** * Properties *)

(** ** TimerEngine *)

Lemma last_cons {A : Type} (l : list A) :
  forall a d : A, List.last (a :: l) d = List.last l a.
Proof.
  induction l as [|x r IH]; intros a d; [done|].
  change (List.last (a :: x :: r) d) with (List.last (x :: r) d).
  now rewrite !IH.
Qed.

Section EngineFacts.

Import TimerEngine.

Variable hz : Z.
Hypothesis hz_pos : 0 < hz.

Lemma quot_below_second x : 0 <= x < hz -> x ÷ hz = 0.
Proof. intros H. now apply Z.quot_small. Qed.

Lemma quot_one_second x : hz <= x < 2 * hz -> x ÷ hz = 1.
Proof.
  intros H. rewrite Z.quot_div_nonneg by lia.
  symmetry. apply (Z.div_unique_pos x hz 1 (x - hz)); lia.
Qed.

Lemma quot_whole_seconds x : 0 <= x -> 0 <= x ÷ hz /\ (x ÷ hz) * hz <= x.
Proof.
  intros H. rewrite Z.quot_div_nonneg by lia. split.
  - apply Z.div_pos; lia.
  - rewrite Z.mul_comm. apply Z.mul_div_le; lia.
Qed.

Lemma run_timer_off e samples :
  timer_active e = false -> run hz e samples = (e, []).
Proof.
  intros Hoff. induction samples as [|now rest IH]; [done|].
  cbn [run]. unfold timeout. rewrite Hoff, IH. done.
Qed.

Lemma countdown_unfold (r : Z) :
  1 <= r -> countdown (Z.to_nat r) = (r - 1) :: countdown (Z.to_nat (r - 1)).
Proof.
  intros Hr. replace (Z.to_nat r) with (S (Z.to_nat (r - 1))) by lia.
  cbn [countdown]. f_equal. lia.
Qed.

Lemma run_paced_countdown samples :
  forall r L p : Z,
    1 <= r ->
    L <= p < L + hz ->
    paced hz p samples = true ->
    L + 2 * r * hz <= List.last samples p ->
    exists L',
      run hz (mkEngine r true L true) samples
      = (mkEngine 0 false L' false,
         map tick_signal (countdown (Z.to_nat r)) ++ [finished_signal]).
Proof.
  induction samples as [|now rest IH]; intros r L p Hr Hp Hpaced Hlong.
  - cbn in Hlong. nia.
  - cbn [paced] in Hpaced.
    apply andb_prop in Hpaced as [Hnow Hrest].
    apply andb_prop in Hnow as [Hge Hlt].
    apply Z.leb_le in Hge. apply Z.ltb_lt in Hlt.
    rewrite last_cons in Hlong.
    cbn [run]. unfold timeout, _tick.
    cbn [timer_active running negb _last remaining set_last set_remaining
         set_running set_timer].
    destruct (Z_lt_dec (now - L) hz) as [Hsmall|Hbig].
    + rewrite quot_below_second by lia. cbn [Z.leb Z.compare].
      destruct (IH r L now) as [L' HL']; [done|lia|done|done|].
      rewrite HL'. eauto.
    + rewrite quot_one_second by lia. cbn [Z.leb Z.compare].
      rewrite (countdown_unfold r Hr). cbn [map app].
      destruct (Z.leb_spec (r - 1) 0) as [Hdone|Hmore].
      * assert (r = 1) as -> by lia. cbn.
        rewrite run_timer_off by done. eauto.
      * destruct (IH (r - 1) now now) as [L' HL']; [lia|lia|done|nia|].
        unfold set_remaining, set_last.
        cbn [app remaining running _last timer_active]. rewrite HL'. eauto.
Qed.

Lemma countdown_length (k : nat) : List.length (countdown k) = k.
Proof. induction k as [|k IH]; [done|]. cbn. now rewrite IH. Qed.

Lemma countdown_lookup (k i : nat) :
  (i < k)%nat -> countdown k !! i = Some (Z.of_nat k - 1 - Z.of_nat i).
Proof.
  revert i. induction k as [|k IH]; intros i Hi; [lia|].
  destruct i as [|i]; cbn [countdown].
  - cbn. f_equal. lia.
  - change ((Z.of_nat k :: countdown k) !! S i) with (countdown k !! i).
    rewrite IH by lia. f_equal. lia.
Qed.

(** After [stop] no sample emits anything. *)
Lemma stop_silences (e : engine) (samples : list Z) :
  run hz (stop e) samples = (stop e, []).
Proof. now apply run_timer_off. Qed.

(** [start] overwrites every field: the engine it is called on does not
    matter, so a start while running is a fresh start. *)
Lemma start_any_engine (d t0 : Z) (e : engine) : start d t0 e = start d t0 init.
Proof. reflexivity. Qed.

(** C1 (amended): for every duration [d >= 1], [start d] at once emits a
    tick carrying [d]; if the engine is then left alone and sampled by a
    monotonic clock at readings less than one second apart, up to a reading
    at least [2 * d] seconds after the start, it emits exactly the ticks
    [d-1, d-2, ..., 0], then one completion, and nothing for any later
    sample. *)
Theorem start_counts_down (d t0 : Z) (samples : list Z) :
  1 <= d ->
  paced hz t0 samples = true ->
  t0 + 2 * d * hz <= List.last samples t0 ->
  snd (start d t0 init) = [tick_signal d]
  /\ counts_down_exactly hz d t0 samples
  /\ forall later : list Z,
       snd (run hz (fst (run hz (fst (start d t0 init)) samples)) later) = [].
Proof.
  intros Hd Hpaced Hlong. split; [reflexivity|].
  destruct (run_paced_countdown samples d t0 t0) as [L' HL'];
    [done|lia|done|done|].
  unfold counts_down_exactly, events_after_start.
  change (fst (start d t0 init)) with (mkEngine d true t0 true).
  rewrite HL'. split; [reflexivity|].
  intros later. cbn [fst]. now rewrite run_timer_off.
Qed.

(** [_tick] on a running engine, branch by branch. *)
Lemma tick_running (now : Z) (e : engine) :
  running e = true ->
  _tick hz now e =
    let dt := (now - _last e) ÷ hz in
    if dt <=? 0 then (e, [])
    else if remaining e - dt <=? 0
    then (mkEngine (remaining e - dt) false now false,
          [tick_signal (remaining e - dt); finished_signal])
    else (mkEngine (remaining e - dt) true now (timer_active e),
          [tick_signal (remaining e - dt)]).
Proof.
  intros Hrun. unfold _tick. rewrite Hrun. cbn [negb].
  destruct (_ <=? 0); [reflexivity|].
  unfold set_remaining, set_last, set_running, set_timer.
  cbn [remaining running _last timer_active]. rewrite Hrun.
  now destruct (_ <=? 0).
Qed.

(** While the engine runs, a sample leaves the timestamp alone or moves
    it to the reading of the sample, and the countdown falls by the whole
    seconds between the two and no more. *)
Lemma tick_step (now : Z) (e : engine) :
  running e = true ->
  _last e <= now ->
  let dt := (now - _last e) ÷ hz in
  let e' := fst (_tick hz now e) in
  remaining e' = remaining e - dt
  /\ 0 <= dt
  /\ dt * hz <= now - _last e
  /\ (now - _last e < hz -> _tick hz now e = (e, []))
  /\ (hz <= now - _last e -> 1 <= dt /\ _last e' = now).
Proof.
  intros Hrun Hmono dt e'.
  destruct (quot_whole_seconds (now - _last e)) as [Hdt0 Hdt1]; [lia|].
  fold dt in Hdt0, Hdt1.
  assert (Hsmall : now - _last e < hz -> dt = 0).
  { intros H. apply quot_below_second. lia. }
  assert (Hbig : hz <= now - _last e -> 1 <= dt).
  { intros H. unfold dt. rewrite Z.quot_div_nonneg by lia.
    apply Z.div_le_lower_bound; lia. }
  subst e'. rewrite (tick_running now e Hrun). cbv zeta. fold dt.
  destruct (Z.leb_spec dt 0) as [Hle|Hgt].
  - repeat split; try done; cbn [fst]; try lia.
    all: intros H; specialize (Hbig H); lia.
  - destruct (remaining e - dt <=? 0); cbn [fst remaining _last].
    all: repeat split; try done; try lia; auto.
    all: intros H; specialize (Hsmall H); lia.
Qed.

(** C2 (amended): on a sampling callback of a running engine, the
    remaining time falls by exactly the whole seconds elapsed since the
    recorded timestamp; while less than one second has elapsed nothing
    changes, so that time is carried to the next sample; once a whole
    second has elapsed the timestamp becomes the reading of the sample. *)
Theorem tick_counts_whole_seconds (now : Z) (e : engine) :
  running e = true ->
  _last e <= now ->
  remaining (fst (_tick hz now e)) = remaining e - (now - _last e) ÷ hz
  /\ 0 <= (now - _last e) ÷ hz
  /\ ((now - _last e) ÷ hz) * hz <= now - _last e
  /\ (now - _last e < hz -> _tick hz now e = (e, []))
  /\ (hz <= now - _last e -> _last (fst (_tick hz now e)) = now).
Proof.
  intros Hrun Hmono.
  destruct (tick_step now e Hrun Hmono) as (H1 & H2 & H3 & H4 & H5).
  repeat split; try done. intros H. now destruct (H5 H).
Qed.

(** The countdown never runs ahead of the clock: the seconds counted off
    fit into the time between the start and the recorded timestamp. *)
Lemma run_never_ahead (samples : list Z) :
  forall (d t0 p : Z) (e : engine),
    (d - remaining e) * hz <= _last e - t0 ->
    _last e <= p ->
    monotonic p samples = true ->
    let e' := fst (run hz e samples) in
    (d - remaining e') * hz <= _last e' - t0
    /\ _last e' <= List.last samples p.
Proof.
  induction samples as [|now rest IH]; intros d t0 p e Hinv Hp Hmono; [done|].
  cbn [monotonic] in Hmono. apply andb_prop in Hmono as [Hge Hrest].
  apply Z.leb_le in Hge. rewrite last_cons.
  cbn [run]. destruct (timeout hz now e) as [e1 ev1] eqn:Hstep.
  destruct (run hz e1 rest) as [e2 ev2] eqn:Hrun. cbn [fst].
  assert (He1 : (d - remaining e1) * hz <= _last e1 - t0 /\ _last e1 <= now).
  { unfold timeout in Hstep.
    destruct (timer_active e); [|injection Hstep as <- _; lia].
    destruct (running e) eqn:Hr.
    - destruct (tick_step now e Hr) as (H1 & H2 & H3 & H4 & H5); [lia|].
      rewrite Hstep in H1, H4, H5. cbn [fst] in H1, H5.
      destruct (Z_lt_dec (now - _last e) hz) as [Hs|Hb].
      + injection (H4 Hs) as -> _. lia.
      + destruct H5 as [_ ->]; [lia|]. rewrite H1. nia.
    - unfold _tick in Hstep. rewrite Hr in Hstep. injection Hstep as <- _. lia. }
  destruct He1 as [Ha Hb].
  specialize (IH d t0 now e1 Ha Hb Hrest). rewrite Hrun in IH. exact IH.
Qed.

End EngineFacts.

(** A start with two seconds to go, sampled every 200 ms for four
    seconds. *)
Lemma start_counts_down_witness :
  1 <= 2
  /\ TimerEngine.paced 1000 0 (TimerEngine.sampled_every 200 0 20) = true
  /\ 0 + 2 * 2 * 1000 <= List.last (TimerEngine.sampled_every 200 0 20) 0
  /\ TimerEngine.counts_down_exactly 1000 2 0
       (TimerEngine.sampled_every 200 0 20).
Proof.
  assert (H1 : 0 < 1000) by lia.
  assert (H2 : 1 <= 2) by lia.
  assert (H3 : TimerEngine.paced 1000 0 (TimerEngine.sampled_every 200 0 20)
               = true) by reflexivity.
  assert (H4 : 0 + 2 * 2 * 1000
               <= List.last (TimerEngine.sampled_every 200 0 20) 0)
    by (vm_compute; discriminate).
  split; [exact H2|]. split; [exact H3|]. split; [exact H4|].
  exact (proj1 (proj2 (start_counts_down 1000 H1 2 0 _ H2 H3 H4))).
Defined.

(** C1 fails for the duration [0]: nothing is emitted until a whole second
    has gone by, and then the engine emits one tick, carrying [-1], before
    the completion. *)
Lemma zero_duration_ticks_below_zero :
  TimerEngine.paced 1000 0 (TimerEngine.sampled_every 200 0 10) = true
  /\ 0 + 2 * 0 * 1000 <= List.last (TimerEngine.sampled_every 200 0 10) 0
  /\ TimerEngine.events_after_start 1000 0 0
       (TimerEngine.sampled_every 200 0 10)
     = [TimerEngine.tick_signal (-1); TimerEngine.finished_signal]
  /\ ~ TimerEngine.counts_down_exactly 1000 0 0
         (TimerEngine.sampled_every 200 0 10).
Proof.
  split; [reflexivity|]. split; [vm_compute; discriminate|].
  split; [reflexivity|]. unfold TimerEngine.counts_down_exactly.
  vm_compute. discriminate.
Qed.

(** A sample that comes late makes the countdown skip values. *)
Example late_sample_skips_a_tick :
  TimerEngine.events_after_start 1000 3 0 [2500; 3500]
  = [TimerEngine.tick_signal 1; TimerEngine.tick_signal 0;
     TimerEngine.finished_signal].
Proof. reflexivity. Qed.

Lemma tick_counts_whole_seconds_witness :
  TimerEngine.running (TimerEngine.mkEngine 10 true 1000 true) = true
  /\ TimerEngine._last (TimerEngine.mkEngine 10 true 1000 true) <= 2300
  /\ TimerEngine._tick 1000 2300 (TimerEngine.mkEngine 10 true 1000 true)
     = (TimerEngine.mkEngine 9 true 2300 true, [TimerEngine.tick_signal 9])
  /\ TimerEngine._last
       (fst (TimerEngine._tick 1000 2300
               (TimerEngine.mkEngine 10 true 1000 true))) = 2300.
Proof.
  assert (H1 : 0 < 1000) by lia.
  assert (H2 : TimerEngine.running (TimerEngine.mkEngine 10 true 1000 true)
               = true) by reflexivity.
  assert (H3 : TimerEngine._last (TimerEngine.mkEngine 10 true 1000 true)
               <= 2300) by (vm_compute; discriminate).
  split; [exact H2|]. split; [exact H3|]. split; [reflexivity|].
  apply (tick_counts_whole_seconds 1000 H1 2300 _ H2 H3).
  vm_compute; discriminate.
Defined.

(** C2 fails where it says no elapsed time is lost.  Sampled every 300 ms,
    the engine counts a second off at 1.2 s, 2.4 s, ..., each time moving
    the timestamp to the reading of the sample: after six seconds on the
    clock it has counted five. *)
Lemma overshoot_is_lost :
  TimerEngine.paced 1000 0 (TimerEngine.sampled_every 300 0 20) = true
  /\ List.last (TimerEngine.sampled_every 300 0 20) 0 = 6000
  /\ TimerEngine.remaining
       (fst (TimerEngine.run 1000
               (fst (TimerEngine.start 10 0 TimerEngine.init))
               (TimerEngine.sampled_every 300 0 20))) = 5
  /\ ~ TimerEngine.drift_free 1000 10 0 (TimerEngine.sampled_every 300 0 20).
Proof.
  split; [reflexivity|]. split; [reflexivity|]. split; [reflexivity|].
  unfold TimerEngine.drift_free. vm_compute. discriminate.
Qed.

(** ** Labels *)

Lemma colons_app (a b : string) : colons (a +:+ b) = (colons a + colons b)%nat.
Proof.
  induction a as [|c a IH]; [done|].
  change (colons (String c a +:+ b))
    with ((if Ascii.eqb c ":" then 1 else 0) + colons (a +:+ b))%nat.
  rewrite IH. cbn [colons]. lia.
Qed.

Lemma colons_zeros (n : nat) : colons (zeros n) = O.
Proof. induction n as [|n IH]; [done|]. cbn. exact IH. Qed.

Lemma colons_uint (u : Decimal.uint) : colons (NilEmpty.string_of_uint u) = O.
Proof. induction u; cbn; auto. Qed.

Lemma colons_digits (z : Z) : colons (digits z) = O.
Proof.
  unfold digits, NilZero.string_of_uint.
  destruct (N.to_uint (Z.to_N z)) eqn:E; try reflexivity.
  all: rewrite <- E; apply colons_uint.
Qed.

Lemma colons_fmt_0d (w : nat) (z : Z) : colons (fmt_0d w z) = O.
Proof.
  unfold fmt_0d. destruct (z <? 0); cbv zeta; cbn [colons].
  - rewrite colons_app, colons_zeros, colons_digits. reflexivity.
  - rewrite colons_app, colons_zeros, colons_digits. reflexivity.
Qed.

(** The label has an hour field, and so two colons, exactly from 3600
    seconds on. *)
Lemma hours_from_3600 (total : Z) :
  colons (seconds_to_hhmmss total) = if 3600 <=? total then 2%nat else 1%nat.
Proof.
  unfold seconds_to_hhmmss.
  set (t := if total <? 0 then 0 else total).
  assert (Ht : (0 <? t `div` 3600) = (3600 <=? total)).
  { subst t. destruct (Z.ltb_spec total 0) as [Hneg|Hpos].
    - cbn. symmetry. apply Z.leb_gt. lia.
    - destruct (Z.leb_spec 3600 total) as [Hbig|Hsmall].
      + apply Z.ltb_lt. apply Z.div_str_pos. lia.
      + apply Z.ltb_ge. rewrite Z.div_small; lia. }
  rewrite Ht. destruct (3600 <=? total).
  - rewrite !colons_app, !colons_fmt_0d. reflexivity.
  - rewrite !colons_app, !colons_fmt_0d. reflexivity.
Qed.

(** C7 fails as written: minutes are always printed on two digits. *)
Lemma minutes_have_two_digits :
  seconds_to_hhmmss 59 = "00:59"
  /\ seconds_to_hhmmss 59 <> "0:59"
  /\ TimerWindow.pose_list
       (TimerWindow.add_pose (TimerWindow.set_spins 1 30 TimerWindow.init))
     <> ["1:30"].
Proof. repeat split; vm_compute; discriminate. Qed.

(** C7 (amended): 59 seconds are rendered as "00:59" and 3661 seconds as
    "1:01:01"; the label has an hour field exactly when the total is at
    least 3600 seconds; a pose of 1 minute 30 seconds is added with the
    label "01:30". *)
Theorem label_formatting :
  seconds_to_hhmmss 59 = "00:59"
  /\ seconds_to_hhmmss 3661 = "1:01:01"
  /\ (forall total : Z,
        colons (seconds_to_hhmmss total)
        = if 3600 <=? total then 2%nat else 1%nat)
  /\ (forall w : TimerWindow.window,
        TimerWindow.pose_list
          (TimerWindow.add_pose (TimerWindow.set_spins 1 30 w))
        = TimerWindow.pose_list w ++ ["01:30"]
        /\ TimerWindow.poses
             (TimerWindow.add_pose (TimerWindow.set_spins 1 30 w))
           = TimerWindow.poses w ++ [mkPose 90]).
Proof.
  split; [reflexivity|]. split; [reflexivity|]. split; [apply hours_from_3600|].
  intros w. split; reflexivity.
Qed.

(** ** TimerWindow *)

Section WindowFacts.

Import TimerWindow.

(** C9: [add_pose] computes [total = minutes * 60 + seconds] from the spin
    boxes; if [total <= 0] the window is unchanged; otherwise exactly one
    pose of [total] seconds is appended to the pose list (and its label to
    the list widget), and nothing else changes. *)
Theorem add_pose_appends_or_ignores (minutes secs : Z) (w : window) :
  let total := minutes * 60 + secs in
  let w0 := set_spins minutes secs w in
  (total <= 0 /\ add_pose w0 = w0)
  \/ (0 < total
      /\ poses (add_pose w0) = poses w ++ [mkPose total]
      /\ List.length (poses (add_pose w0)) = S (List.length (poses w))
      /\ pose_list (add_pose w0) = pose_list w ++ [seconds_to_hhmmss total]
      /\ engine (add_pose w0) = engine w
      /\ current_index (add_pose w0) = current_index w
      /\ display (add_pose w0) = display w
      /\ pose_info (add_pose w0) = pose_info w
      /\ chk_auto_advance (add_pose w0) = chk_auto_advance w).
Proof.
  intros total w0. unfold add_pose. cbn [spin_min spin_sec w0 set_spins].
  fold total. destruct (Z.leb_spec total 0) as [Hle|Hgt]; [left; done|].
  right. cbn. rewrite length_app. cbn. repeat split; try done; lia.
Qed.

Lemma py_index_nat {A : Type} (l : list A) (i : Z) :
  0 <= i < Z.of_nat (List.length l) -> py_index l i = l !! Z.to_nat i.
Proof.
  intros [H0 H1]. unfold py_index.
  destruct (Z.leb_spec 0 i); [|lia]. destruct (Z.ltb_spec i (Z.of_nat (List.length l))); [|lia].
  reflexivity.
Qed.

(** [start_pose] on a valid index. *)
Lemma start_pose_valid (now : Z) (w : window) (pose : Pose) :
  py_index (poses w) (current_index w) = Some pose ->
  start_pose now w
  = Some (set_display (seconds_to_hhmmss (seconds pose))
            (set_engine (fst (TimerEngine.start (seconds pose) now (engine w)))
               (set_pose_info ("Pose " +:+ py_str (current_index w + 1)) w)),
          [played "pose_start";
           emitted (TimerEngine.tick_signal (seconds pose))]).
Proof. intros H. unfold start_pose. rewrite H. reflexivity. Qed.

(** C6: on completion the window plays [over]; then, with auto-advance
    on and a next pose, it moves to that pose, plays [pose_start] and
    restarts the engine with the duration of the new pose; with
    auto-advance on and no next pose it shows "Session Complete"; with
    auto-advance off it shows "Pose Finished (Manual Advance)" and does not
    advance. *)
Theorem on_pose_finished_cases (now : Z) (w : window) :
  -1 <= current_index w ->
  match chk_auto_advance w,
        current_index w <? Z.of_nat (List.length (poses w)) - 1 with
  | true, true =>
      exists (pose : Pose) (w' : window),
        poses w !! Z.to_nat (current_index w + 1) = Some pose
        /\ on_pose_finished now w
           = Some (w', [played "over"; played "pose_start";
                        emitted (TimerEngine.tick_signal (seconds pose))])
        /\ current_index w' = current_index w + 1
        /\ engine w'
           = fst (TimerEngine.start (seconds pose) now (engine w))
        /\ TimerEngine.running (engine w') = true
        /\ TimerEngine.remaining (engine w') = seconds pose
        /\ pose_info w' = "Pose " +:+ py_str (current_index w + 2)
        /\ poses w' = poses w
  | true, false =>
      on_pose_finished now w
      = Some (set_pose_info "Session Complete" w, [played "over"])
  | false, _ =>
      on_pose_finished now w
      = Some (set_pose_info "Pose Finished (Manual Advance)" w,
              [played "over"])
  end.
Proof.
  intros Hidx. unfold on_pose_finished.
  destruct (chk_auto_advance w); [|reflexivity].
  destruct (Z.ltb_spec (current_index w) (Z.of_nat (List.length (poses w)) - 1))
    as [Hnext|Hlast]; [|reflexivity].
  destruct (lookup_lt_is_Some_2 (poses w) (Z.to_nat (current_index w + 1)))
    as [pose Hpose]; [lia|].
  exists pose. eexists. split; [exact Hpose|].
  rewrite (start_pose_valid now _ pose).
  - split; [reflexivity|]. cbn. repeat split; try done.
    do 2 f_equal. lia.
  - cbn [poses current_index set_current_index].
    rewrite py_index_nat by lia. exact Hpose.
Qed.

(** [current_index] never falls below its initial value. *)
Lemma current_index_from_minus_one (now : Z) (w w' : window)
    (evs : list event) :
  -1 <= current_index w ->
  (start_session now w = Some (w', evs)
   \/ next_pose now w = Some (w', evs)
   \/ on_pose_finished now w = Some (w', evs)) ->
  -1 <= current_index w'.
Proof.
  assert (Hstart : forall v u l,
            -1 <= current_index v -> start_pose now v = Some (u, l) ->
            -1 <= current_index u).
  { intros v u l Hv. unfold start_pose.
    destruct (py_index (poses v) (current_index v)); [|discriminate].
    intros [= <- _]. exact Hv. }
  intros Hw [H|[H|H]].
  - unfold start_session in H. destruct (poses w); [now injection H as <- _|].
    destruct (start_pose now (set_current_index 0 w)) as [[u evs']|] eqn:E;
      [|discriminate].
    injection H as <- _. eapply Hstart; [|exact E]. cbn. lia.
  - unfold next_pose in H. destruct (_ <? _).
    + eapply Hstart; [|exact H]. cbn. lia.
    + now injection H as <- _.
  - unfold on_pose_finished in H. destruct (chk_auto_advance w).
    + destruct (_ <? _).
      * destruct (start_pose now _) as [[u evs']|] eqn:E; [|discriminate].
        injection H as <- _. eapply Hstart; [|exact E]. cbn. lia.
      * now injection H as <- _.
    + now injection H as <- _.
Qed.

(** C10: before any session ([current_index = -1]) and with a pose in the
    list, [next_pose] sets [current_index] to 0 and starts the countdown
    of the first pose, playing [pose_start] and nothing else; it does not
    look at the state of the session. *)
Theorem next_pose_before_session (now : Z) (w : window) (first : Pose)
    (rest : list Pose) :
  current_index w = -1 ->
  poses w = first :: rest ->
  exists w' : window,
    next_pose now w
    = Some (w', [played "pose_start";
                 emitted (TimerEngine.tick_signal (seconds first))])
    /\ current_index w' = 0
    /\ engine w' = fst (TimerEngine.start (seconds first) now (engine w))
    /\ TimerEngine.running (engine w') = true
    /\ TimerEngine.remaining (engine w') = seconds first
    /\ display w' = seconds_to_hhmmss (seconds first)
    /\ pose_info w' = "Pose 1".
Proof.
  intros Hidx Hposes. unfold next_pose. rewrite Hidx, Hposes.
  cbn [List.length].
  destruct (Z.ltb_spec (-1) (Z.of_nat (S (List.length rest)) - 1)); [|lia].
  eexists. rewrite (start_pose_valid now _ first).
  - split; [reflexivity|]. cbn. repeat split; done.
  - cbn [poses current_index set_current_index]. rewrite Hposes. reflexivity.
Qed.

End WindowFacts.

Lemma on_pose_finished_cases_witness :
  let w := TimerWindow.set_current_index 0
             (TimerWindow.set_poses [mkPose 5; mkPose 3] TimerWindow.init) in
  -1 <= TimerWindow.current_index w
  /\ exists (pose : Pose) (w' : TimerWindow.window),
       TimerWindow.poses w !! 1%nat = Some pose
       /\ TimerWindow.on_pose_finished 7000 w
          = Some (w', [TimerWindow.played "over";
                       TimerWindow.played "pose_start";
                       TimerWindow.emitted
                         (TimerEngine.tick_signal (seconds pose))])
       /\ TimerWindow.current_index w' = 1.
Proof.
  intros w.
  assert (H : -1 <= TimerWindow.current_index w) by (vm_compute; discriminate).
  split; [exact H|].
  destruct (on_pose_finished_cases 7000 w H)
    as (pose & w' & Hpose & Heq & Hidx & _).
  exists pose, w'. split; [exact Hpose|]. split; [exact Heq|exact Hidx].
Defined.

Lemma next_pose_before_session_witness :
  exists w' : TimerWindow.window,
    TimerWindow.next_pose 100
      (TimerWindow.set_poses [mkPose 5; mkPose 3] TimerWindow.init)
    = Some (w', [TimerWindow.played "pose_start";
                 TimerWindow.emitted (TimerEngine.tick_signal 5)])
    /\ TimerWindow.current_index w' = 0.
Proof.
  destruct (next_pose_before_session 100
              (TimerWindow.set_poses [mkPose 5; mkPose 3] TimerWindow.init)
              (mkPose 5) [mkPose 3] eq_refl eq_refl)
    as (w' & Heq & Hidx & _).
  exists w'. split; [exact Heq | exact Hidx].
Defined.

(** The scenario of the specification: poses of 5 s and 3 s, auto-advance
    on, the timer expiring every 200 ms. *)
Example session_5_3 :
  let w := TimerWindow.set_poses [mkPose 5; mkPose 3] TimerWindow.init in
  let expiries :=
    map (fun t => (t, t)) (TimerEngine.sampled_every 200 0 50) in
  option_map (fun r => (TimerWindow.pose_info (fst r), snd r))
    (TimerWindow.session 1000 0 expiries w)
  = Some ("Session Complete",
          [TimerWindow.played "session_start";
           TimerWindow.played "pose_start";
           TimerWindow.emitted (TimerEngine.tick_signal 5);
           TimerWindow.emitted (TimerEngine.tick_signal 4);
           TimerWindow.emitted (TimerEngine.tick_signal 3);
           TimerWindow.emitted (TimerEngine.tick_signal 2);
           TimerWindow.emitted (TimerEngine.tick_signal 1);
           TimerWindow.emitted (TimerEngine.tick_signal 0);
           TimerWindow.emitted TimerEngine.finished_signal;
           TimerWindow.played "over";
           TimerWindow.played "pose_start";
           TimerWindow.emitted (TimerEngine.tick_signal 3);
           TimerWindow.emitted (TimerEngine.tick_signal 2);
           TimerWindow.emitted (TimerEngine.tick_signal 1);
           TimerWindow.emitted (TimerEngine.tick_signal 0);
           TimerWindow.emitted TimerEngine.finished_signal;
           TimerWindow.played "over"]).
Proof. vm_compute. reflexivity. Qed.


(** ** Paths and archive names *)

Lemma has_slash_app (a b : string) :
  has_slash (a +:+ b) = has_slash a || has_slash b.
Proof.
  induction a as [|c a IH]; [reflexivity|].
  change (has_slash (String c a +:+ b))
    with (is_slash c || has_slash (a +:+ b)).
  rewrite IH. cbn [has_slash]. now rewrite orb_assoc.
Qed.

Lemma is_slash_lower (c : ascii) : is_slash (lower_ascii c) = is_slash c.
Proof. destruct c as [[] [] [] [] [] [] [] []]; reflexivity. Qed.

Lemma has_slash_lower (s : string) : has_slash (str_lower s) = has_slash s.
Proof.
  induction s as [|c s IH]; [reflexivity|].
  cbn [str_lower has_slash]. now rewrite is_slash_lower, IH.
Qed.

Lemma has_slash_drop (n : nat) :
  forall s, has_slash s = false -> has_slash (string_drop n s) = false.
Proof.
  induction n as [|n IH]; intros s Hs; [exact Hs|].
  destruct s as [|c s]; [reflexivity|].
  cbn [string_drop]. apply IH. cbn [has_slash] in Hs.
  now apply orb_false_elim in Hs as [_ Hs].
Qed.

Lemma last_forallb (f : string -> bool) (l : list string) (d : string) :
  forallb f l = true -> f d = true -> f (List.last l d) = true.
Proof.
  revert d. induction l as [|x l IH]; intros d Hl Hd; [exact Hd|].
  cbn [forallb] in Hl. apply andb_prop in Hl as [Hx Hl].
  rewrite last_cons. apply IH; assumption.
Qed.

Lemma path_name_no_slash (p : Path) :
  wf_path p = true -> has_slash (path_name p) = false.
Proof.
  pose (f := fun c => negb (has_slash c)).
  assert (Hf : forall l, forallb wf_part l = true -> forallb f l = true).
  { intros l Hl. induction l as [|x l IH]; [reflexivity|].
    cbn [forallb] in *. apply andb_prop in Hl as [Hx Hl].
    unfold wf_part in Hx. apply andb_prop in Hx as [Hx _].
    unfold f at 1. now rewrite Hx, IH. }
  assert (Hlast : forall l d, forallb f l = true -> f d = true ->
                              has_slash (List.last l d) = false).
  { intros l d Hl Hd. apply negb_true_iff.
    exact (last_forallb f l d Hl Hd). }
  intros Hwf. destruct p as [|c rest]; [reflexivity|].
  cbn [wf_path] in Hwf. unfold path_name.
  destruct (is_root c) eqn:Hroot.
  - destruct rest as [|c' rest']; [reflexivity|].
    rewrite !last_cons. apply Hf in Hwf. cbn [forallb] in Hwf.
    apply andb_prop in Hwf as [Hc' Hwf]. now apply Hlast.
  - apply Hf in Hwf. destruct rest as [|c' rest'].
    + cbn [forallb] in Hwf. apply andb_prop in Hwf as [Hc _].
      now apply negb_true_iff in Hc.
    + apply Hlast; [exact Hwf|reflexivity].
Qed.

Lemma path_suffix_no_slash (p : Path) :
  wf_path p = true -> has_slash (path_suffix p) = false.
Proof.
  intros Hwf. unfold path_suffix.
  destruct (rfind_dot (path_name p)) as [i|]; [|reflexivity].
  destruct (_ && _); [|reflexivity].
  apply has_slash_drop. now apply path_name_no_slash.
Qed.

Lemma split_slash_no_slash (s : string) :
  has_slash s = false -> split_slash s = [s].
Proof.
  induction s as [|c s IH]; intros Hs; [reflexivity|].
  cbn [has_slash] in Hs. apply orb_false_elim in Hs as [Hc Hs].
  cbn [split_slash]. now rewrite Hc, (IH Hs).
Qed.

Lemma parse_parts_name (s : string) :
  has_slash s = false -> is_component s = true -> parse_parts s = [s].
Proof.
  intros Hs Hcomp. unfold parse_parts.
  rewrite (split_slash_no_slash s Hs).
  destruct s as [|c s]; [discriminate|].
  cbn [has_slash] in Hs. apply orb_false_elim in Hs as [Hc _].
  rewrite Hc. cbn [app]. rewrite filter_cons, filter_nil.
  destruct (decide (Is_true (is_component (String c s)))) as [_|Hno];
    [reflexivity|].
  destruct Hno. now rewrite Hcomp.
Qed.

Lemma is_root_no_slash (s : string) : has_slash s = false -> is_root s = false.
Proof.
  intros Hs. unfold is_root. destruct (String.eqb_spec s "/") as [->|]; [|done].
  discriminate.
Qed.

(** A name that is one plain component goes under the directory as it
    is. *)
Lemma path_div_name (target_dir : Path) (s : string) :
  has_slash s = false -> is_component s = true ->
  path_div target_dir (path_name (parse_parts s)) = target_dir ++ [s].
Proof.
  intros Hs Hcomp. rewrite (parse_parts_name s Hs Hcomp).
  unfold path_name. rewrite (is_root_no_slash s Hs).
  unfold path_div. rewrite (parse_parts_name s Hs Hcomp).
  now rewrite (is_root_no_slash s Hs).
Qed.

Ltac cue_cases H :=
  unfold CUES in H; cbn [map fst] in H;
  repeat (apply elem_of_cons in H as [->|H]);
  [..|by apply elem_of_nil in H].

Lemma cue_key_no_slash (k : string) :
  k ∈ map fst CUES -> has_slash k = false.
Proof. intros H. cue_cases H; reflexivity. Qed.

Lemma arc_name_component (k x : string) :
  k ∈ map fst CUES -> is_component (k +:+ x) = true.
Proof. intros H. cue_cases H; reflexivity. Qed.

Lemma arc_name_not_manifest (k x : string) :
  k ∈ map fst CUES -> k +:+ x <> "manifest.json".
Proof. intros H. cue_cases H; discriminate. Qed.

(** No cue identifier is the beginning of another, so the archive names
    of two cues differ. *)
Lemma arc_names_apart (k1 k2 x1 x2 : string) :
  k1 ∈ map fst CUES -> k2 ∈ map fst CUES ->
  k1 +:+ x1 = k2 +:+ x2 -> k1 = k2.
Proof.
  intros H1 H2 Heq. cue_cases H1; cue_cases H2;
    first [reflexivity | discriminate Heq].
Qed.

(** ** SoundBank *)

Section BankFacts.

Import SoundBank.

Variable json_dumps : json -> bytes.
Variable json_loads : bytes -> option json.

Lemma zf_read_app_last (zf : zipfile) (name : string) (data : bytes) :
  zf_read (zf ++ [(name, data)]) name = Some data.
Proof.
  induction zf as [|[n d] zf IH]; cbn.
  - now rewrite String.eqb_refl.
  - now rewrite IH.
Qed.

Lemma zf_read_in_namelist (zf : zipfile) (name : string) :
  name ∈ namelist zf -> is_Some (zf_read zf name).
Proof.
  induction zf as [|[n d] zf IH]; cbn; intros Hin.
  - by apply elem_of_nil in Hin.
  - destruct (zf_read zf name) eqn:E; [eauto|].
    apply elem_of_cons in Hin as [->|Hin].
    + rewrite String.eqb_refl. eauto.
    + destruct (IH Hin) as [x Hx]. congruence.
Qed.

(** With a dictionary for [cues], a turn of the loop raises nothing. *)
Lemma import_cue_dict zf members target_dir st cue :
  import_cue zf (JObj members) target_dir st cue
  = inr (import_effect zf members target_dir st cue).
Proof.
  destruct st as [fs b]. unfold import_cue, import_effect, py_get.
  cbn [fst snd].
  destruct (dict_get members (fst cue)) as [v|]; [|reflexivity].
  cbn [mbind option_bind].
  destruct v as [|flag|z|name|items|ms];
    cbn [truthy in_namelist present_name];
    rewrite ?andb_false_r; try reflexivity.
  destruct (negb (name =? "")%string); cbn [andb]; [|reflexivity].
  destruct (bool_decide (name ∈ namelist zf)) eqn:Hin; [|reflexivity].
  apply bool_decide_eq_true in Hin.
  destruct (zf_read_in_namelist zf name Hin) as [data Hdata].
  rewrite Hdata. reflexivity.
Qed.

Lemma import_loop_dict zf members target_dir todo :
  forall st,
    import_loop zf (JObj members) target_dir st todo
    = (fold_left (import_effect zf members target_dir) todo st, None).
Proof.
  induction todo as [|cue rest IH]; intros st; [reflexivity|].
  cbn [import_loop fold_left]. rewrite import_cue_dict. apply IH.
Qed.

(** With anything else for [cues], the first turn raises and nothing has
    been done. *)
Lemma import_loop_not_dict zf cues target_dir st cue rest :
  (forall members, cues <> JObj members) ->
  import_loop zf cues target_dir st (cue :: rest) = (st, Some AttributeError).
Proof.
  intros Hnot. cbn [import_loop]. destruct st as [fs b].
  unfold import_cue, py_get. destruct cues; try reflexivity.
  now destruct (Hnot members).
Qed.

Lemma CUES_unfold : exists cue rest, CUES = cue :: rest.
Proof. unfold CUES. eauto. Qed.


Lemma import_effect_cue_files zf members target_dir st cue (k : string) :
  cue_files (snd (import_effect zf members target_dir st cue)) !! k
  = match dict_get members (fst cue) ≫= present_name zf with
    | Some name =>
        if decide (fst cue = k)
        then Some (Some (path_div target_dir (path_name (parse_parts name))))
        else cue_files (snd st) !! k
    | None => cue_files (snd st) !! k
    end.
Proof.
  unfold import_effect.
  destruct (dict_get members (fst cue) ≫= present_name zf) as [name|];
    [|reflexivity].
  cbn [snd set_cue_file cue_files]. apply lookup_insert.
Qed.

Lemma import_effect_base_dir zf members target_dir st cue :
  base_dir (snd (import_effect zf members target_dir st cue))
  = base_dir (snd st).
Proof.
  unfold import_effect.
  now destruct (dict_get members (fst cue) ≫= present_name zf).
Qed.

(** The registrations after the loop: a cue of [todo] whose manifest
    value names an entry gets the extracted file, every other key keeps
    what it had. *)
Lemma import_fold_cue_files zf members target_dir todo (k : string) :
  NoDup (map fst todo) ->
  forall st,
    cue_files (snd (fold_left (import_effect zf members target_dir) todo st))
      !! k
    = match dict_get members k ≫= present_name zf with
      | Some name =>
          if bool_decide (k ∈ map fst todo)
          then Some (Some (path_div target_dir (path_name (parse_parts name))))
          else cue_files (snd st) !! k
      | None => cue_files (snd st) !! k
      end.
Proof.
  induction todo as [|cue rest IH]; intros Hnodup st.
  - cbn. now destruct (dict_get members k ≫= present_name zf).
  - cbn [map] in Hnodup. apply NoDup_cons in Hnodup as [Hfresh Hnodup].
    cbn [fold_left]. rewrite (IH Hnodup). rewrite import_effect_cue_files.
    cbn [map]. destruct (decide (fst cue = k)) as [Heq|Hne].
    + rewrite Heq in *.
      rewrite (bool_decide_eq_false_2 (k ∈ map fst rest)) by done.
      rewrite (bool_decide_eq_true_2 (k ∈ k :: map fst rest))
        by (apply elem_of_cons; auto).
      now destruct (dict_get members k ≫= present_name zf).
    + destruct (dict_get members k ≫= present_name zf) as [name|].
      * destruct (bool_decide (k ∈ map fst rest)) eqn:Hin.
        -- apply bool_decide_eq_true in Hin.
           rewrite bool_decide_eq_true_2 by (apply elem_of_cons; auto).
           reflexivity.
        -- apply bool_decide_eq_false in Hin.
           rewrite bool_decide_eq_false_2
             by (intros [?|?]%elem_of_cons; congruence).
           now destruct (dict_get members (fst cue) ≫= present_name zf).
      * now destruct (dict_get members (fst cue) ≫= present_name zf).
Qed.

Lemma NoDup_cue_keys : NoDup (map fst CUES).
Proof. apply (bool_decide_unpack _). vm_compute. exact I. Qed.


Lemma dict_set_fresh (cues : list (string * json)) (k : string) (v : json) :
  dict_get cues k = None -> dict_set cues k v = cues ++ [(k, v)].
Proof.
  induction cues as [|[k' v'] cues IH]; intros Hnone; [reflexivity|].
  cbn in *. destruct (k' =? k)%string; [discriminate|].
  now rewrite IH.
Qed.

Lemma dict_get_snoc_ne (cues : list (string * json)) (k k' : string)
    (v : json) :
  k <> k' -> dict_get (cues ++ [(k, v)]) k' = dict_get cues k'.
Proof.
  intros Hne. induction cues as [|[k0 v0] cues IH]; cbn.
  - apply String.eqb_neq in Hne. now rewrite Hne.
  - now rewrite IH.
Qed.

Lemma export_cue_step fs b zf cues cue :
  dict_get cues (fst cue) = None ->
  export_cue fs b (zf, cues) cue
  = (zf ++ option_list (arc_entry fs b (fst cue)),
     cues ++ [(fst cue, manifest_value fs b (fst cue))]).
Proof.
  intros Hfresh. unfold export_cue, manifest_value, arc_entry.
  destruct (get_cue_file b (fst cue)) as [src|].
  - destruct (fs !! src) as [data|]; cbn [option_list];
      rewrite dict_set_fresh by done; now rewrite ?app_nil_r.
  - cbn [option_list]. rewrite dict_set_fresh by done. now rewrite app_nil_r.
Qed.

Lemma export_fold fs b todo :
  NoDup (map fst todo) ->
  forall zf cues,
    (forall cue, cue ∈ todo -> dict_get cues (fst cue) = None) ->
    fold_left (export_cue fs b) todo (zf, cues)
    = (zf ++ omap (fun cue => arc_entry fs b (fst cue)) todo,
       cues ++ map (fun cue => (fst cue, manifest_value fs b (fst cue))) todo).
Proof.
  induction todo as [|cue rest IH]; intros Hnodup zf cues Hfresh.
  - cbn. now rewrite !app_nil_r.
  - cbn [map] in Hnodup. apply NoDup_cons in Hnodup as [Hhead Hnodup].
    cbn [fold_left]. rewrite export_cue_step by (apply Hfresh; left).
    rewrite (IH Hnodup).
    + cbn [omap map list_omap]. rewrite <- !app_assoc. f_equal.
      * f_equal. now destruct (arc_entry fs b (fst cue)).
    + intros c Hc. rewrite dict_get_snoc_ne.
      * apply Hfresh. now right.
      * intros Heq. apply Hhead. rewrite Heq.
        apply list_elem_of_fmap. eauto.
Qed.

Lemma export_soundbank_eq fs b :
  export_soundbank json_dumps fs b
  = exported_assets fs b
    ++ [("manifest.json", json_dumps (manifest_of (exported_cues fs b)))].
Proof.
  unfold export_soundbank.
  rewrite (export_fold fs b CUES NoDup_cue_keys [] []) by reflexivity.
  reflexivity.
Qed.

Lemma arc_entry_exported fs b cue_key arc_name data :
  cue_key ∈ map fst CUES ->
  arc_entry fs b cue_key = Some (arc_name, data) ->
  (arc_name, data) ∈ exported_assets fs b.
Proof.
  intros Hkey Hentry. unfold exported_assets.
  apply list_elem_of_fmap in Hkey as ([k name] & -> & Hcue).
  apply list_elem_of_omap. exists (k, name). auto.
Qed.

Lemma exported_cues_get fs b cue_key :
  cue_key ∈ map fst CUES ->
  dict_get (exported_cues fs b) cue_key = Some (manifest_value fs b cue_key).
Proof.
  intros H. unfold exported_cues. cue_cases H; reflexivity.
Qed.


(** A name under which one entry only was written reads back that
    entry. *)
Lemma zf_read_unique (zf : zipfile) (name : string) (data : bytes) :
  (name, data) ∈ zf ->
  (forall data', (name, data') ∈ zf -> data' = data) ->
  zf_read zf name = Some data.
Proof.
  induction zf as [|[n d] zf IH]; intros Hin Huniq.
  - by apply elem_of_nil in Hin.
  - cbn [zf_read]. destruct (zf_read zf name) as [later|] eqn:Hlater.
    + f_equal. apply Huniq. right.
      clear -Hlater. induction zf as [|[n' d'] zf IH]; [discriminate|].
      cbn [zf_read] in Hlater. destruct (zf_read zf name) as [l|].
      * right. apply IH. congruence.
      * destruct (String.eqb_spec n' name) as [->|]; [|discriminate].
        injection Hlater as ->. left.
    + apply elem_of_cons in Hin as [Heq|Hin].
      * injection Heq as <- <-. now rewrite String.eqb_refl.
      * assert (Hsome : is_Some (zf_read zf name)).
        { apply zf_read_in_namelist, list_elem_of_fmap.
          exists (name, data). auto. }
        rewrite Hlater in Hsome. now destruct Hsome.
Qed.

Lemma zf_read_app_other (zf : zipfile) (n name : string) (data : bytes) :
  n <> name -> zf_read (zf ++ [(n, data)]) name = zf_read zf name.
Proof.
  intros Hne. induction zf as [|[n' d'] zf IH]; cbn.
  - apply String.eqb_neq in Hne. now rewrite Hne.
  - now rewrite IH.
Qed.

(** The files after the loop: a path holds [data] if it did before or
    some turn wrote to it, provided every turn that writes to it writes
    [data]. *)
Lemma import_fold_fs zf members target_dir todo (p : Path) (data : bytes) :
  (forall cue name,
     cue ∈ todo ->
     dict_get members (fst cue) ≫= present_name zf = Some name ->
     path_div target_dir (path_name (parse_parts name)) = p ->
     zf_read zf name = Some data) ->
  forall st,
    (fst st !! p = Some data
     \/ exists cue name,
          cue ∈ todo
          /\ dict_get members (fst cue) ≫= present_name zf = Some name
          /\ path_div target_dir (path_name (parse_parts name)) = p) ->
    fst (fold_left (import_effect zf members target_dir) todo st) !! p
    = Some data.
Proof.
  induction todo as [|cue rest IH]; intros Hsame st Hor.
  - destruct Hor as [H|(c & n & Hc & _)]; [exact H|].
    by apply elem_of_nil in Hc.
  - cbn [fold_left]. apply IH.
    + intros c n Hc. apply Hsame. now right.
    + unfold import_effect.
      destruct (dict_get members (fst cue) ≫= present_name zf)
        as [name|] eqn:Hfired.
      * cbn [fst].
        destruct (decide (path_div target_dir (path_name (parse_parts name))
                          = p)) as [Hp|Hp].
        -- left. rewrite Hp, lookup_insert_eq.
           rewrite (Hsame cue name); [reflexivity|left|exact Hfired|exact Hp].
        -- rewrite lookup_insert_ne by exact Hp.
           destruct Hor as [H|(c & n & Hc & Hn & Hpn)]; [now left|].
           apply elem_of_cons in Hc as [->|Hc].
           ++ rewrite Hfired in Hn. injection Hn as <-. contradiction.
           ++ right. eauto.
      * destruct Hor as [H|(c & n & Hc & Hn & Hpn)]; [now left|].
        apply elem_of_cons in Hc as [->|Hc].
        -- rewrite Hfired in Hn. discriminate.
        -- right. eauto.
Qed.

Lemma arc_entry_shape fs b cue_key arc_name data :
  arc_entry fs b cue_key = Some (arc_name, data) ->
  exists src,
    get_cue_file b cue_key = Some src
    /\ fs !! src = Some data
    /\ arc_name = cue_key +:+ str_lower (path_suffix src).
Proof.
  unfold arc_entry. destruct (get_cue_file b cue_key) as [src|]; [|done].
  destruct (fs !! src) as [d|] eqn:E; [|done].
  intros [= <- <-]. eauto.
Qed.

Lemma wf_bank_path b cue_key src :
  wf_bank b = true -> cue_key ∈ map fst CUES ->
  get_cue_file b cue_key = Some src -> wf_path src = true.
Proof.
  intros Hwf Hkey Hsrc. unfold wf_bank in Hwf.
  rewrite forallb_forall in Hwf.
  apply list_elem_of_fmap in Hkey as (cue & -> & Hcue).
  apply list_elem_of_In in Hcue. specialize (Hwf cue Hcue).
  now rewrite Hsrc in Hwf.
Qed.

(** The archive name of a cue is one plain path component. *)
Lemma arc_name_plain fs b cue_key arc_name data :
  wf_bank b = true -> cue_key ∈ map fst CUES ->
  arc_entry fs b cue_key = Some (arc_name, data) ->
  has_slash arc_name = false /\ is_component arc_name = true.
Proof.
  intros Hwf Hkey Hentry.
  destruct (arc_entry_shape _ _ _ _ _ Hentry) as (src & Hsrc & _ & ->).
  split; [|now apply arc_name_component].
  rewrite has_slash_app, has_slash_lower, (cue_key_no_slash _ Hkey).
  apply path_suffix_no_slash. exact (wf_bank_path b cue_key src Hwf Hkey Hsrc).
Qed.

Lemma arc_entry_apart fs b k1 k2 arc_name d1 d2 :
  k1 ∈ map fst CUES -> k2 ∈ map fst CUES ->
  arc_entry fs b k1 = Some (arc_name, d1) ->
  arc_entry fs b k2 = Some (arc_name, d2) ->
  k1 = k2 /\ d1 = d2.
Proof.
  intros H1 H2 E1 E2.
  destruct (arc_entry_shape _ _ _ _ _ E1) as (s1 & _ & _ & Ha1).
  destruct (arc_entry_shape _ _ _ _ _ E2) as (s2 & _ & _ & Ha2).
  assert (Hk : k1 = k2).
  { apply (arc_names_apart k1 k2 (str_lower (path_suffix s1))
             (str_lower (path_suffix s2)) H1 H2). congruence. }
  subst k2. split; [reflexivity|congruence].
Qed.

(** The exported container gives back, under the archive name of a cue,
    the bytes of the file of that cue. *)
Lemma export_read_back fs b cue_key arc_name data :
  cue_key ∈ map fst CUES ->
  arc_entry fs b cue_key = Some (arc_name, data) ->
  zf_read (export_soundbank json_dumps fs b) arc_name = Some data.
Proof.
  intros Hkey Hentry. rewrite export_soundbank_eq.
  destruct (arc_entry_shape _ _ _ _ _ Hentry) as (src & _ & _ & Harc).
  rewrite zf_read_app_other
    by (intros Heq; apply (arc_name_not_manifest cue_key
                             (str_lower (path_suffix src)) Hkey);
        congruence).
  apply zf_read_unique.
  - exact (arc_entry_exported fs b cue_key arc_name data Hkey Hentry).
  - intros data' Hin. unfold exported_assets in Hin.
    apply list_elem_of_omap in Hin as ([k name] & Hcue & Hk).
    cbn [fst] in Hk.
    assert (Hk' : k ∈ map fst CUES)
      by (apply list_elem_of_fmap; exists (k, name); auto).
    now destruct (arc_entry_apart fs b k cue_key arc_name data' data Hk' Hkey Hk
                    Hentry).
Qed.

Lemma present_exported fs b cue_key arc_name data :
  cue_key ∈ map fst CUES ->
  arc_entry fs b cue_key = Some (arc_name, data) ->
  present_name (export_soundbank json_dumps fs b) (JStr arc_name)
  = Some arc_name.
Proof.
  intros Hkey Hentry. unfold present_name.
  destruct (arc_entry_shape _ _ _ _ _ Hentry) as (src & _ & _ & Harc).
  assert (Hcomp : is_component arc_name = true)
    by (rewrite Harc; now apply arc_name_component).
  unfold is_component in Hcomp. apply andb_prop in Hcomp as [Hne _].
  rewrite Hne. cbn [andb].
  rewrite bool_decide_eq_true_2; [reflexivity|].
  rewrite export_soundbank_eq. unfold namelist. rewrite map_app.
  apply elem_of_app. left. apply list_elem_of_fmap.
  exists (arc_name, data). split; [reflexivity|].
  exact (arc_entry_exported fs b cue_key arc_name data Hkey Hentry).
Qed.

(** What fires in the import of an exported container is an exported
    entry. *)
Lemma fired_exported fs b zf cue_key name :
  cue_key ∈ map fst CUES ->
  dict_get (exported_cues fs b) cue_key ≫= present_name zf = Some name ->
  exists data, arc_entry fs b cue_key = Some (name, data).
Proof.
  intros Hkey. rewrite (exported_cues_get fs b cue_key Hkey).
  cbn [mbind option_bind]. unfold manifest_value.
  destruct (arc_entry fs b cue_key) as [[arc_name data]|]; [|discriminate].
  cbn [present_name]. destruct (_ && _); [|discriminate].
  intros [= <-]. eauto.
Qed.

(** C4: export a bank, then import the container into a fresh bank; for
    every one of the six cues that had a registered file on disk at the
    export, the fresh bank has a registered file, and that file holds the
    bytes of the original.  The registered paths are well-formed paths
    and the codec reads back the manifest it wrote. *)
Theorem export_import_roundtrip (fs fs2 : filesystem) (b : bank)
    (base : Path) (stamp cue_key : string) (src : Path) (data : bytes) :
  wf_bank b = true ->
  json_loads (json_dumps (manifest_of (exported_cues fs b)))
  = Some (manifest_of (exported_cues fs b)) ->
  cue_key ∈ map fst CUES ->
  get_cue_file b cue_key = Some src ->
  fs !! src = Some data ->
  let r := import_soundbank json_loads stamp
             (export_soundbank json_dumps fs b) (fs2, new base) in
  snd r = None
  /\ exists dest,
       get_cue_file (snd (fst r)) cue_key = Some dest
       /\ fst (fst r) !! dest = Some data.
Proof.
  intros Hwf Hcodec Hkey Hsrc Hdata r.
  set (arc0 := cue_key +:+ str_lower (path_suffix src)).
  assert (Hentry : arc_entry fs b cue_key = Some (arc0, data)).
  { unfold arc_entry. now rewrite Hsrc, Hdata. }
  set (zf := export_soundbank json_dumps fs b) in *.
  set (target := path_div base ("soundbank_" +:+ stamp)).
  assert (Hr : r = (fold_left (import_effect zf (exported_cues fs b) target)
                      CUES (fs2, new base), None)).
  { subst r. unfold import_soundbank.
    assert (Hm : zf_read zf "manifest.json"
                 = Some (json_dumps (manifest_of (exported_cues fs b)))).
    { subst zf. rewrite export_soundbank_eq. apply zf_read_app_last. }
    rewrite Hm, Hcodec.
    change (py_get (manifest_of (exported_cues fs b)) "cues" (JObj []))
      with (@inr exn json (JObj (exported_cues fs b))).
    cbv iota beta. rewrite import_loop_dict. reflexivity. }
  rewrite Hr. cbn [fst snd]. split; [reflexivity|].
  assert (Hfired : dict_get (exported_cues fs b) cue_key ≫= present_name zf
                   = Some arc0).
  { rewrite (exported_cues_get fs b cue_key Hkey). cbn [mbind option_bind].
    unfold manifest_value. rewrite Hentry.
    exact (present_exported fs b cue_key arc0 data Hkey Hentry). }
  exists (path_div target (path_name (parse_parts arc0))). split.
  - unfold get_cue_file.
    rewrite (import_fold_cue_files _ _ _ _ _ NoDup_cue_keys), Hfired.
    now rewrite bool_decide_eq_true_2.
  - apply import_fold_fs.
    + intros cue name Hcue Hname Hdest.
      assert (Hk : fst cue ∈ map fst CUES)
        by (apply list_elem_of_fmap; eauto).
      destruct (fired_exported fs b zf (fst cue) name Hk Hname) as [d Hd].
      destruct (arc_name_plain fs b _ _ _ Hwf Hk Hd) as [Hs Hc].
      destruct (arc_name_plain fs b _ _ _ Hwf Hkey Hentry) as [Hs0 Hc0].
      rewrite (path_div_name target name Hs Hc) in Hdest.
      rewrite (path_div_name target arc0 Hs0 Hc0) in Hdest.
      apply app_inv_head in Hdest. injection Hdest as ->.
      exact (export_read_back fs b cue_key arc0 data Hkey Hentry).
    + right. apply list_elem_of_fmap in Hkey as (cue & -> & Hcue).
      exists cue, arc0. auto.
Qed.

End BankFacts.

(** A bank with a recording registered for [over], exported and imported
    into a fresh bank under another directory. *)
Lemma export_import_roundtrip_witness :
  let rec := ["/"; "home"; "u"; "sounds"; "over_1700000000.WAV"] in
  let data := [Byte.x52; Byte.x49; Byte.x46; Byte.x46] in
  let fs : filesystem := {[ rec := data ]} in
  let b := SoundBank.set_cue_file fs "over" (Some rec)
             (SoundBank.new ["/"; "home"; "u"; "sounds"]) in
  let r := SoundBank.import_soundbank Codec.json_loads "20260101_120000"
             (SoundBank.export_soundbank Codec.json_dumps fs b)
             (∅, SoundBank.new ["/"; "home"; "v"; "sounds"]) in
  SoundBank.wf_bank b = true
  /\ Codec.json_loads
       (Codec.json_dumps (SoundBank.manifest_of (SoundBank.exported_cues fs b)))
     = Some (SoundBank.manifest_of (SoundBank.exported_cues fs b))
  /\ "over" ∈ map fst CUES
  /\ SoundBank.get_cue_file b "over" = Some rec
  /\ fs !! rec = Some data
  /\ snd r = None
  /\ exists dest,
       SoundBank.get_cue_file (snd (fst r)) "over" = Some dest
       /\ fst (fst r) !! dest = Some data.
Proof.
  intros rec data fs b r.
  assert (H1 : SoundBank.wf_bank b = true) by (vm_compute; reflexivity).
  assert (H2 : Codec.json_loads
                 (Codec.json_dumps
                    (SoundBank.manifest_of (SoundBank.exported_cues fs b)))
               = Some (SoundBank.manifest_of (SoundBank.exported_cues fs b)))
    by (vm_compute; reflexivity).
  assert (H3 : "over" ∈ map fst CUES)
    by (apply (bool_decide_unpack _); vm_compute; exact I).
  assert (H4 : SoundBank.get_cue_file b "over" = Some rec)
    by (vm_compute; reflexivity).
  assert (H5 : fs !! rec = Some data) by (vm_compute; reflexivity).
  split; [exact H1|]. split; [exact H2|]. split; [exact H3|].
  split; [exact H4|]. split; [exact H5|].
  exact (export_import_roundtrip Codec.json_dumps Codec.json_loads fs ∅ b
           ["/"; "home"; "v"; "sounds"] "20260101_120000" "over" rec data
           H1 H2 H3 H4 H5).
Defined.


(** A manifest without [cues] is read as one with no cue. *)
Example manifest_without_cues :
  snd (SoundBank.import_soundbank Codec.json_loads "20260101_120000"
         [("manifest.json", Codec.json_dumps (JObj [("version", JNum 1)]))]
         (∅, SoundBank.new ["/"; "home"; "u"; "sounds"]))
  = None.
Proof. vm_compute. reflexivity. Qed.

(** * Further properties *)

(** ** TimerEngine: what a start can emit *)

Section EngineTrace.

Import TimerEngine.

Variable hz : Z.

(** A running engine, sampled at any readings at all: ticks that fall
    strictly, then, if the engine has stopped, one completion. *)
Lemma run_shape (samples : list Z) :
  forall e : engine,
    running e = true ->
    timer_active e = true ->
    exists vals : list Z,
      snd (run hz e samples)
      = map tick_signal vals
        ++ (if running (fst (run hz e samples)) then [] else [finished_signal])
      /\ StronglySorted (fun a b => b < a) (remaining e :: vals)
      /\ remaining (fst (run hz e samples)) = List.last vals (remaining e)
      /\ (running (fst (run hz e samples)) = false ->
          remaining (fst (run hz e samples)) <= 0)
      /\ timer_active (fst (run hz e samples))
         = running (fst (run hz e samples)).
Proof.
  induction samples as [|now rest IH]; intros e Hrun Htimer.
  - exists []. cbn. rewrite Hrun, Htimer. repeat split; try done.
    repeat constructor.
  - cbn [run]. unfold timeout. rewrite Htimer, (tick_running hz now e Hrun).
    cbv zeta. destruct (Z.leb_spec ((now - _last e) ÷ hz) 0) as [Hle|Hgt].
    + destruct (IH e Hrun Htimer) as (vals & H1 & H2 & H3 & H4 & H5).
      destruct (run hz e rest) as [e2 ev2]. cbn [fst snd] in *.
      exists vals. cbn [app]. auto.
    + destruct (Z.leb_spec (remaining e - (now - _last e) ÷ hz) 0)
        as [Hend|Hmore].
      * rewrite run_timer_off by reflexivity. cbn [fst snd running remaining].
        exists [remaining e - (now - _last e) ÷ hz]. cbn.
        repeat split; try done.
        repeat constructor. lia.
      * set (e1 := mkEngine _ true now (timer_active e)).
        destruct (IH e1 eq_refl Htimer) as (vals & H1 & H2 & H3 & H4 & H5).
        destruct (run hz e1 rest) as [e2 ev2]. cbn [fst snd] in *.
        exists (remaining e1 :: vals). rewrite H1.
        split; [reflexivity|]. split; [|split; [|auto]].
        -- constructor; [exact H2|].
           apply StronglySorted_inv in H2 as [_ Hall].
           constructor; [subst e1; cbn; lia|].
           eapply Forall_impl; [exact Hall|]. subst e1. cbn. intros; lia.
        -- rewrite last_cons. exact H3.
Qed.

(** X1: after [stop], no sample and no direct call of [_tick] emits a
    signal or changes the engine, whatever the clock reads. *)
Theorem stopped_engine_is_silent (e : engine) (samples : list Z) (now : Z) :
  run hz (stop e) samples = (stop e, [])
  /\ _tick hz now (stop e) = (stop e, []).
Proof. split; [now apply run_timer_off|reflexivity]. Qed.

(** X2: whatever the duration and however the samples fall (late, early,
    out of order), what a start emits after its own tick is a list of
    ticks whose values fall strictly below the duration and below each
    other, followed by one completion if the engine has stopped and by
    nothing if it still runs; the engine stops only with a remaining time
    of zero or less, and no later sample emits anything. *)
Theorem start_emits_falling_ticks (d t0 : Z) (samples : list Z) :
  let r := run hz (fst (start d t0 init)) samples in
  exists vals : list Z,
    snd r = map tick_signal vals
            ++ (if running (fst r) then [] else [finished_signal])
    /\ StronglySorted (fun a b => b < a) (d :: vals)
    /\ remaining (fst r) = List.last vals d
    /\ (running (fst r) = false ->
        remaining (fst r) <= 0
        /\ forall later, snd (run hz (fst r) later) = []).
Proof.
  intros r.
  destruct (run_shape samples (fst (start d t0 init)) eq_refl eq_refl)
    as (vals & H1 & H2 & H3 & H4 & H5).
  exists vals. fold r in H1, H3, H4, H5. repeat split; try assumption.
  - now apply H4.
  - intros later. rewrite run_timer_off; [reflexivity|]. congruence.
Qed.

Hypothesis hz_pos : 0 < hz.

(** X3: with a monotonic clock the countdown never runs ahead of it: the
    seconds counted off fit into the time between the start and the
    latest sample, so a completion never comes before the whole duration
    has elapsed. *)
Theorem completion_is_never_early (d t0 : Z) (samples : list Z) :
  monotonic t0 samples = true ->
  let e := fst (run hz (fst (start d t0 init)) samples) in
  (d - remaining e) * hz <= List.last samples t0 - t0
  /\ (running e = false -> d * hz <= List.last samples t0 - t0).
Proof.
  intros Hmono e.
  destruct (run_never_ahead hz hz_pos samples d t0 t0 (fst (start d t0 init)))
    as [Ha Hb]; [cbn; lia|cbn; lia|exact Hmono|].
  fold e in Ha, Hb. split; [lia|].
  intros Hstop.
  destruct (run_shape samples (fst (start d t0 init)) eq_refl eq_refl)
    as (vals & _ & _ & _ & H4 & _).
  fold e in H4. specialize (H4 Hstop). nia.
Qed.

End EngineTrace.

Lemma completion_is_never_early_witness :
  TimerEngine.monotonic 0 [2500; 3500] = true
  /\ (3 - TimerEngine.remaining
            (fst (TimerEngine.run 1000
                    (fst (TimerEngine.start 3 0 TimerEngine.init))
                    [2500; 3500]))) * 1000
     <= List.last [2500; 3500] 0 - 0.
Proof.
  assert (H0 : 0 < 1000) by lia.
  assert (H1 : TimerEngine.monotonic 0 [2500; 3500] = true) by reflexivity.
  split; [exact H1|].
  exact (proj1 (completion_is_never_early 1000 H0 3 0 [2500; 3500] H1)).
Defined.

(** ** Labels: a label tells the time it shows *)

Lemma digits_nonempty (z : Z) : digits z <> "".
Proof.
  unfold digits, NilZero.string_of_uint.
  destruct (N.to_uint (Z.to_N z)); cbn; discriminate.
Qed.

Lemma digits_inj (a b : Z) : 0 <= a -> 0 <= b -> digits a = digits b -> a = b.
Proof.
  intros Ha Hb Heq. unfold digits in Heq.
  assert (Hnil : forall n, N.to_uint n <> Decimal.Nil).
  { intros [|p]; [discriminate|]. apply DecimalPos.Unsigned.to_uint_nonnil. }
  assert (Hu : N.to_uint (Z.to_N a) = N.to_uint (Z.to_N b)).
  { pose proof (NilZero.usu _ (Hnil (Z.to_N a))) as H1.
    pose proof (NilZero.usu _ (Hnil (Z.to_N b))) as H2.
    rewrite Heq in H1. congruence. }
  apply DecimalN.Unsigned.to_uint_inj in Hu. lia.
Qed.

(** A field of one digit at least is the digits of its number. *)
Lemma fmt_0d_1 (z : Z) : 0 <= z -> fmt_0d 1 z = digits z.
Proof.
  intros Hz. unfold fmt_0d. destruct (Z.ltb_spec z 0); [lia|]. cbv zeta.
  pose proof (digits_nonempty z) as Hne.
  destruct (digits z) as [|c s]; [done|]. reflexivity.
Qed.

(** The sixty two-digit fields are all different. *)
Lemma fmt_0d_2_inj (m m' : Z) :
  0 <= m < 60 -> 0 <= m' < 60 -> fmt_0d 2 m = fmt_0d 2 m' -> m = m'.
Proof.
  intros Hm Hm' Heq.
  pose (table := map (fun k => fmt_0d 2 (Z.of_nat k)) (seq 0 60)).
  assert (Hnodup : NoDup table).
  { apply (bool_decide_unpack _). vm_compute. exact I. }
  assert (Hlook : forall z, 0 <= z < 60 ->
                            table !! Z.to_nat z = Some (fmt_0d 2 z)).
  { intros z Hz. unfold table.
    change (map ?f ?l) with (f <$> l). rewrite list_lookup_fmap.
    rewrite lookup_seq_lt by lia. cbn. f_equal. f_equal. lia. }
  pose proof (Hlook m Hm) as H1. pose proof (Hlook m' Hm') as H2.
  rewrite <- Heq in H2.
  pose proof (NoDup_lookup table _ _ _ Hnodup H1 H2). lia.
Qed.

(** Two texts that agree, each cut at its first colon, agree on both
    sides of it. *)
Lemma colon_split (x x' y y' : string) :
  colons x = O -> colons x' = O ->
  x +:+ String ":" y = x' +:+ String ":" y' -> x = x' /\ y = y'.
Proof.
  revert x'. induction x as [|c x IH]; intros x' Hx Hx' Heq.
  - destruct x' as [|c' x'].
    + cbn in Heq. now injection Heq as ->.
    + cbn in Heq. injection Heq as <- _. cbn in Hx'. discriminate.
  - destruct x' as [|c' x'].
    + cbn in Heq. injection Heq as -> _. cbn in Hx. discriminate.
    + change (String c (x +:+ String ":" y) = String c' (x' +:+ String ":" y'))
        in Heq.
      injection Heq as -> Heq.
      cbn [colons] in Hx, Hx'.
      destruct (IH x') as [-> ->]; [lia|lia|exact Heq|]. done.
Qed.

Lemma hour_test (t : Z) :
  0 <= t -> (0 <? t `div` 3600) = (3600 <=? t).
Proof.
  intros Ht. destruct (Z.leb_spec 3600 t) as [Hbig|Hsmall].
  - apply Z.ltb_lt. apply Z.div_str_pos. lia.
  - apply Z.ltb_ge. rewrite Z.div_small; lia.
Qed.

Lemma label_of_time (t : Z) :
  0 <= t ->
  seconds_to_hhmmss t
  = if 3600 <=? t
    then digits (t `div` 3600)
         +:+ String ":" (fmt_0d 2 ((t `mod` 3600) `div` 60)
                         +:+ String ":" (fmt_0d 2 (t `mod` 60)))
    else fmt_0d 2 ((t `mod` 3600) `div` 60)
         +:+ String ":" (fmt_0d 2 (t `mod` 60)).
Proof.
  intros Ht. unfold seconds_to_hhmmss.
  destruct (Z.ltb_spec t 0); [lia|]. cbv zeta.
  rewrite (hour_test t Ht). destruct (3600 <=? t); [|reflexivity].
  rewrite fmt_0d_1 by (apply Z.div_pos; lia). reflexivity.
Qed.

Lemma label_inj (a b : Z) :
  0 <= a -> 0 <= b -> seconds_to_hhmmss a = seconds_to_hhmmss b -> a = b.
Proof.
  intros Ha Hb Heq.
  assert (Hcol : (3600 <=? a) = (3600 <=? b)).
  { pose proof (hours_from_3600 a) as H1.
    pose proof (hours_from_3600 b) as H2. rewrite Heq in H1.
    rewrite H1 in H2. destruct (3600 <=? a), (3600 <=? b); congruence. }
  rewrite (label_of_time a Ha), (label_of_time b Hb), <- Hcol in Heq.
  assert (Hm : forall t, 0 <= t -> 0 <= (t `mod` 3600) `div` 60 < 60).
  { intros t Ht. pose proof (Z.mod_pos_bound t 3600 ltac:(lia)).
    split; [apply Z.div_pos; lia|apply Z.div_lt_upper_bound; lia]. }
  assert (Hs : forall t, 0 <= t `mod` 60 < 60)
    by (intros t; apply Z.mod_pos_bound; lia).
  assert (Hrebuild : forall t,
            t = 3600 * (t `div` 3600) + 60 * ((t `mod` 3600) `div` 60)
                + t `mod` 60).
  { intros t. pose proof (Z.div_mod t 3600 ltac:(lia)) as H1.
    pose proof (Z.div_mod (t `mod` 3600) 60 ltac:(lia)) as H2.
    assert (H3 : (t `mod` 3600) `mod` 60 = t `mod` 60).
    { pose proof (Z.mod_pos_bound (t `mod` 3600) 60 ltac:(lia)).
      apply (Z.mod_unique t 60
               (60 * (t `div` 3600) + (t `mod` 3600) `div` 60)); [lia|lia]. }
    lia. }
  destruct (Z.leb_spec 3600 a) as [Hbig|Hsmall].
  - apply colon_split in Heq as [Hh Heq]; [|apply colons_digits..].
    apply colon_split in Heq as [Hmm Hss]; [|apply colons_fmt_0d..].
    apply digits_inj in Hh; [|apply Z.div_pos; lia..].
    apply fmt_0d_2_inj in Hmm; [|auto..].
    apply fmt_0d_2_inj in Hss; [|auto..].
    pose proof (Hrebuild a). pose proof (Hrebuild b). lia.
  - apply colon_split in Heq as [Hmm Hss]; [|apply colons_fmt_0d..].
    apply fmt_0d_2_inj in Hmm; [|auto..].
    apply fmt_0d_2_inj in Hss; [|auto..].
    assert (Hb' : b < 3600) by (symmetry in Hcol; apply Z.leb_gt in Hcol; lia).
    pose proof (Hrebuild a). pose proof (Hrebuild b).
    pose proof (Z.div_small a 3600 ltac:(lia)).
    pose proof (Z.div_small b 3600 ltac:(lia)). lia.
Qed.

(** X4: two times have the same label exactly when they are the same
    time once negative values are taken for zero: the display never shows
    two different non-negative remaining times alike, and shows every
    negative one as zero. *)
Theorem label_tells_the_time (a b : Z) :
  seconds_to_hhmmss a = seconds_to_hhmmss b <-> Z.max 0 a = Z.max 0 b.
Proof.
  assert (Hclamp : forall t, seconds_to_hhmmss t = seconds_to_hhmmss (Z.max 0 t)).
  { intros t. unfold seconds_to_hhmmss.
    destruct (Z.ltb_spec t 0) as [Hneg|Hpos].
    - now rewrite Z.max_l by lia.
    - rewrite Z.max_r by lia. destruct (Z.ltb_spec t 0); [lia|reflexivity]. }
  split.
  - intros Heq. rewrite (Hclamp a), (Hclamp b) in Heq.
    apply label_inj in Heq; lia.
  - intros Heq. now rewrite (Hclamp a), (Hclamp b), Heq.
Qed.

(** ** TimerWindow: what the slots keep *)

Section WindowInvariants.

Import TimerWindow.

Variable hz : Z.

(** What one expiry of the timer can emit: nothing, a tick carrying the
    new remaining time, or that tick and the completion. *)
Lemma timeout_shape (now : Z) (e : TimerEngine.engine) :
  TimerEngine.timeout hz now e = (e, [])
  \/ (exists e',
        TimerEngine.timeout hz now e
        = (e', [TimerEngine.tick_signal (TimerEngine.remaining e')]))
  \/ (exists e',
        TimerEngine.timeout hz now e
        = (e', [TimerEngine.tick_signal (TimerEngine.remaining e');
                TimerEngine.finished_signal])
        /\ TimerEngine.timer_active e' = false).
Proof.
  unfold TimerEngine.timeout. destruct (TimerEngine.timer_active e); [|auto].
  destruct (TimerEngine.running e) eqn:Hrun.
  - rewrite (tick_running hz now e Hrun). cbv zeta.
    destruct (_ <=? 0); [auto|]. destruct (_ <=? 0); right; [right|left].
    + eexists (TimerEngine.mkEngine _ _ _ _). split; reflexivity.
    + eexists (TimerEngine.mkEngine _ _ _ _). reflexivity.
  - unfold TimerEngine._tick. rewrite Hrun. auto.
Qed.

Lemma start_pose_in_range (now : Z) (w : window) :
  0 <= current_index w < Z.of_nat (List.length (poses w)) ->
  exists pose,
    poses w !! Z.to_nat (current_index w) = Some pose
    /\ start_pose now w
       = Some (set_display (seconds_to_hhmmss (seconds pose))
                 (set_engine
                    (fst (TimerEngine.start (seconds pose) now (engine w)))
                    (set_pose_info ("Pose " +:+ py_str (current_index w + 1))
                       w)),
               [played "pose_start";
                emitted (TimerEngine.tick_signal (seconds pose))]).
Proof.
  intros Hidx.
  destruct (lookup_lt_is_Some_2 (poses w) (Z.to_nat (current_index w)))
    as [pose Hpose]; [lia|].
  exists pose. split; [exact Hpose|].
  apply start_pose_valid. now rewrite py_index_nat.
Qed.

(** A started pose leaves the index where it was and the display on the
    duration of the pose. *)
Lemma start_pose_keeps (now : Z) (w : window) :
  0 <= current_index w < Z.of_nat (List.length (poses w)) ->
  exists w' evs,
    start_pose now w = Some (w', evs)
    /\ index_in_range w' /\ shows_remaining w'.
Proof.
  intros Hidx.
  destruct (start_pose_in_range now w Hidx) as (pose & _ & Heq).
  do 2 eexists. split; [exact Heq|]. split.
  - unfold index_in_range. cbn. lia.
  - reflexivity.
Qed.

Lemma start_session_keeps (now : Z) (w : window) :
  index_in_range w ->
  exists w' evs,
    start_session now w = Some (w', evs)
    /\ index_in_range w' /\ (shows_remaining w -> shows_remaining w').
Proof.
  intros Hidx. unfold start_session.
  destruct (poses w) as [|pose rest] eqn:Hposes; [eauto|].
  destruct (start_pose_keeps now (set_current_index 0 w))
    as (w' & evs & Heq & H1 & H2).
  { cbn. rewrite Hposes. cbn. lia. }
  rewrite Heq. eauto.
Qed.

Lemma next_pose_keeps (now : Z) (w : window) :
  index_in_range w ->
  exists w' evs,
    next_pose now w = Some (w', evs)
    /\ index_in_range w' /\ (shows_remaining w -> shows_remaining w').
Proof.
  intros Hidx. unfold next_pose.
  destruct (Z.ltb_spec (current_index w) (Z.of_nat (List.length (poses w)) - 1));
    [|eauto].
  destruct (start_pose_keeps now (set_current_index (current_index w + 1) w))
    as (w' & evs & Heq & H1 & H2).
  { unfold index_in_range in Hidx. cbn. lia. }
  eauto.
Qed.

Lemma on_pose_finished_keeps (now : Z) (w : window) :
  index_in_range w ->
  exists w' evs,
    on_pose_finished now w = Some (w', evs)
    /\ index_in_range w' /\ (shows_remaining w -> shows_remaining w').
Proof.
  intros Hidx. unfold on_pose_finished.
  destruct (chk_auto_advance w); [|eauto].
  destruct (Z.ltb_spec (current_index w) (Z.of_nat (List.length (poses w)) - 1));
    [|eauto].
  destruct (start_pose_keeps now (set_current_index (current_index w + 1) w))
    as (w' & evs & Heq & H1 & H2).
  { unfold index_in_range in Hidx. cbn. lia. }
  rewrite Heq. eauto.
Qed.

Lemma on_timeout_keeps (times : Z * Z) (w : window) :
  index_in_range w ->
  exists w' evs,
    on_timeout hz times w = Some (w', evs)
    /\ index_in_range w' /\ (shows_remaining w -> shows_remaining w').
Proof.
  intros Hidx. destruct times as [now now']. unfold on_timeout.
  destruct (timeout_shape now (engine w))
    as [Heq|[(e' & Heq)|(e' & Heq & _)]]; rewrite Heq.
  - cbn. exists w, []. split; [now destruct w|]. auto.
  - cbn [on_tick_signals]. do 2 eexists. split; [reflexivity|]. split.
    + exact Hidx.
    + reflexivity.
  - cbn [on_tick_signals].
    destruct (on_pose_finished_keeps now'
                (update_display (TimerEngine.remaining e') (set_engine e' w)))
      as (w' & evs & Hfin & H1 & H2); [exact Hidx|].
    rewrite Hfin. do 2 eexists. split; [reflexivity|]. split; [exact H1|].
    intros _. apply H2. reflexivity.
Qed.

Lemma run_keeps (expiries : list (Z * Z)) :
  forall w,
    index_in_range w ->
    exists w' evs,
      run hz expiries w = Some (w', evs)
      /\ index_in_range w' /\ (shows_remaining w -> shows_remaining w').
Proof.
  induction expiries as [|times rest IH]; intros w Hidx; [cbn; eauto|].
  cbn [run].
  destruct (on_timeout_keeps times w Hidx) as (w1 & evs1 & Heq & H1 & H2).
  rewrite Heq.
  destruct (IH w1 H1) as (w2 & evs2 & Heq2 & H3 & H4).
  rewrite Heq2. eauto 8.
Qed.

Lemma add_pose_keeps (w : window) :
  (index_in_range w -> index_in_range (add_pose w))
  /\ (shows_remaining w -> shows_remaining (add_pose w)).
Proof.
  unfold add_pose, index_in_range, shows_remaining.
  destruct (_ <=? 0); [auto|]. cbn. rewrite length_app. cbn. split; [lia|auto].
Qed.

(** X5: the index starts at [-1] and stays [-1] or the index of a pose,
    so the session logic never indexes the pose list out of range:
    from a window in that state no slot raises ([add_pose],
    [start_session], [next_pose], [on_pose_finished], any number of
    expiries of the timer), and each leaves the window in that state. *)
Theorem index_stays_in_range (w : window) :
  index_in_range w ->
  index_in_range init
  /\ index_in_range (add_pose w)
  /\ (forall now, exists w' evs,
        start_session now w = Some (w', evs) /\ index_in_range w')
  /\ (forall now, exists w' evs,
        next_pose now w = Some (w', evs) /\ index_in_range w')
  /\ (forall now, exists w' evs,
        on_pose_finished now w = Some (w', evs) /\ index_in_range w')
  /\ (forall expiries, exists w' evs,
        run hz expiries w = Some (w', evs) /\ index_in_range w').
Proof.
  intros Hidx. split; [unfold index_in_range; cbn; lia|].
  split; [now apply add_pose_keeps|].
  split; [|split; [|split]].
  - intros now.
    destruct (start_session_keeps now w Hidx) as (w' & evs & ? & ? & ?).
    eauto.
  - intros now.
    destruct (next_pose_keeps now w Hidx) as (w' & evs & ? & ? & ?).
    eauto.
  - intros now.
    destruct (on_pose_finished_keeps now w Hidx) as (w' & evs & ? & ? & ?).
    eauto.
  - intros expiries.
    destruct (run_keeps expiries w Hidx) as (w' & evs & ? & ? & ?).
    eauto.
Qed.

(** X6: the display always shows the remaining time of the engine: it
    does at the start ("00:00" for 0), and [add_pose], [start_session],
    [next_pose], [on_pose_finished] and the expiries of the timer keep it
    so. *)
Theorem display_shows_remaining_time (w : window) :
  index_in_range w ->
  shows_remaining w ->
  shows_remaining init
  /\ shows_remaining (add_pose w)
  /\ (forall now w' evs, start_session now w = Some (w', evs) ->
                         shows_remaining w')
  /\ (forall now w' evs, next_pose now w = Some (w', evs) ->
                         shows_remaining w')
  /\ (forall now w' evs, on_pose_finished now w = Some (w', evs) ->
                         shows_remaining w')
  /\ (forall expiries w' evs, run hz expiries w = Some (w', evs) ->
                              shows_remaining w').
Proof.
  intros Hidx Hshow. split; [reflexivity|].
  split; [now apply add_pose_keeps|]. split; [|split; [|split]].
  - intros now w' evs Heq.
    destruct (start_session_keeps now w Hidx) as (u & l & Hu & _ & H).
    rewrite Heq in Hu. injection Hu as <- _. auto.
  - intros now w' evs Heq.
    destruct (next_pose_keeps now w Hidx) as (u & l & Hu & _ & H).
    rewrite Heq in Hu. injection Hu as <- _. auto.
  - intros now w' evs Heq.
    destruct (on_pose_finished_keeps now w Hidx) as (u & l & Hu & _ & H).
    rewrite Heq in Hu. injection Hu as <- _. auto.
  - intros expiries w' evs Heq.
    destruct (run_keeps expiries w Hidx) as (u & l & Hu & _ & H).
    rewrite Heq in Hu. injection Hu as <- _. auto.
Qed.

(** While the timer of the engine is off, its expiries do nothing. *)
Lemma run_idle (expiries : list (Z * Z)) (w : window) :
  TimerEngine.timer_active (engine w) = false ->
  run hz expiries w = Some (w, []).
Proof.
  intros Hoff. induction expiries as [|[now now'] rest IH]; [reflexivity|].
  cbn [run]. unfold on_timeout, TimerEngine.timeout. rewrite Hoff.
  cbn [on_tick_signals].
  replace (set_engine (engine w) w) with w by now destruct w.
  rewrite IH. reflexivity.
Qed.

(** X7: [start_session] does nothing on an empty pose list; on any other
    it goes to the first pose whatever the window was doing: it plays
    [session_start] then [pose_start], sets the index to 0 and starts the
    engine afresh with the duration of the first pose. *)
Theorem start_session_restarts (now : Z) (w : window) :
  match poses w with
  | [] => start_session now w = Some (w, [])
  | first :: _ =>
      exists w',
        start_session now w
        = Some (w', [played "session_start"; played "pose_start";
                     emitted (TimerEngine.tick_signal (seconds first))])
        /\ current_index w' = 0
        /\ engine w' = TimerEngine.mkEngine (seconds first) true now true
        /\ display w' = seconds_to_hhmmss (seconds first)
        /\ pose_info w' = "Pose 1"
        /\ poses w' = poses w
  end.
Proof.
  unfold start_session. destruct (poses w) as [|first rest] eqn:Hposes;
    [reflexivity|].
  rewrite (start_pose_valid now _ first).
  - eexists. split; [reflexivity|]. cbn. rewrite Hposes. repeat split.
  - cbn. rewrite Hposes. reflexivity.
Qed.

(** X8: with auto-advance off, a completion leaves the engine stopped and
    the index where it is, and the window then waits: expiries of the
    timer emit nothing and change nothing until [next_pose] (or
    [start_session]) is called. *)
Theorem manual_mode_waits (now : Z) (w : window) (expiries : list (Z * Z)) :
  chk_auto_advance w = false ->
  TimerEngine.timer_active (engine w) = false ->
  exists w',
    on_pose_finished now w = Some (w', [played "over"])
    /\ pose_info w' = "Pose Finished (Manual Advance)"
    /\ current_index w' = current_index w
    /\ engine w' = engine w
    /\ run hz expiries w' = Some (w', []).
Proof.
  intros Hauto Hoff. unfold on_pose_finished. rewrite Hauto.
  eexists. split; [reflexivity|]. repeat split.
  apply run_idle. exact Hoff.
Qed.

End WindowInvariants.

Lemma index_stays_in_range_witness :
  TimerWindow.index_in_range TimerWindow.init
  /\ TimerWindow.index_in_range (TimerWindow.add_pose TimerWindow.init).
Proof.
  assert (H1 : TimerWindow.index_in_range TimerWindow.init)
    by (unfold TimerWindow.index_in_range; cbn; lia).
  split; [exact H1|].
  exact (proj1 (proj2 (index_stays_in_range 1000 TimerWindow.init H1))).
Defined.

Lemma display_shows_remaining_time_witness :
  TimerWindow.index_in_range TimerWindow.init
  /\ TimerWindow.shows_remaining TimerWindow.init
  /\ TimerWindow.shows_remaining (TimerWindow.add_pose TimerWindow.init).
Proof.
  assert (H1 : TimerWindow.index_in_range TimerWindow.init)
    by (unfold TimerWindow.index_in_range; cbn; lia).
  assert (H2 : TimerWindow.shows_remaining TimerWindow.init) by reflexivity.
  split; [exact H1|]. split; [exact H2|].
  exact (proj1 (proj2
           (display_shows_remaining_time 1000 TimerWindow.init H1 H2))).
Defined.

Lemma manual_mode_waits_witness :
  let w := TimerWindow.mkWindow (TimerEngine.mkEngine 0 false 5000 false)
             [mkPose 5; mkPose 3] 0 "00:00" "Pose 1" 5 0 ["00:05"; "00:03"]
             false in
  TimerWindow.chk_auto_advance w = false
  /\ TimerEngine.timer_active (TimerWindow.engine w) = false
  /\ exists w',
       TimerWindow.on_pose_finished 5000 w
       = Some (w', [TimerWindow.played "over"])
       /\ TimerWindow.pose_info w' = "Pose Finished (Manual Advance)".
Proof.
  intros w.
  destruct (manual_mode_waits 1000 5000 w [] eq_refl eq_refl)
    as (w' & H1 & H2 & _).
  split; [reflexivity|]. split; [reflexivity|].
  exists w'. split; [exact H1|exact H2].
Defined.

(** ** TimerWindow: a whole session with auto-advance *)

Section AutoSession.

Import TimerWindow.

Variable hz : Z.
Hypothesis hz_pos : 0 < hz.

Lemma set_engine_same (w : window) : set_engine (engine w) w = w.
Proof. now destruct w. Qed.

(** Less than a second since the timestamp: the expiry does nothing. *)
Lemma on_timeout_wait (now now' r L : Z) (w : window) :
  engine w = TimerEngine.mkEngine r true L true ->
  0 <= now - L < hz ->
  on_timeout hz (now, now') w = Some (w, []).
Proof.
  intros Heng Hx. unfold on_timeout, TimerEngine.timeout. rewrite Heng.
  cbn [TimerEngine.timer_active].
  rewrite tick_running by reflexivity. cbv zeta.
  cbn [TimerEngine._last TimerEngine.remaining].
  rewrite (quot_below_second hz) by lia. cbn [Z.leb Z.compare].
  cbn [on_tick_signals]. rewrite <- Heng, set_engine_same. reflexivity.
Qed.

(** A second has gone by and more than one is left: one tick. *)
Lemma on_timeout_tick (now now' r L : Z) (w : window) :
  engine w = TimerEngine.mkEngine r true L true ->
  hz <= now - L < 2 * hz ->
  2 <= r ->
  on_timeout hz (now, now') w
  = Some (update_display (r - 1)
            (set_engine (TimerEngine.mkEngine (r - 1) true now true) w),
          [emitted (TimerEngine.tick_signal (r - 1))]).
Proof.
  intros Heng Hx Hr. unfold on_timeout, TimerEngine.timeout. rewrite Heng.
  cbn [TimerEngine.timer_active].
  rewrite tick_running by reflexivity. cbv zeta.
  cbn [TimerEngine._last TimerEngine.remaining TimerEngine.timer_active].
  rewrite (quot_one_second hz hz_pos) by lia. cbn [Z.leb Z.compare].
  destruct (Z.leb_spec (r - 1) 0); [lia|]. reflexivity.
Qed.

(** A second has gone by and it was the last: the tick for 0, the
    completion, and the slot of the completion. *)
Lemma on_timeout_finish (now now' L : Z) (w : window) :
  engine w = TimerEngine.mkEngine 1 true L true ->
  hz <= now - L < 2 * hz ->
  on_timeout hz (now, now') w
  = match on_pose_finished now'
            (update_display 0
               (set_engine (TimerEngine.mkEngine 0 false now false) w)) with
    | Some (w', evs) =>
        Some (w', emitted (TimerEngine.tick_signal 0)
                  :: emitted TimerEngine.finished_signal :: evs)
    | None => None
    end.
Proof.
  intros Heng Hx. unfold on_timeout, TimerEngine.timeout. rewrite Heng.
  cbn [TimerEngine.timer_active].
  rewrite tick_running by reflexivity. cbv zeta.
  cbn [TimerEngine._last TimerEngine.remaining TimerEngine.timer_active].
  rewrite (quot_one_second hz hz_pos) by lia.
  change (1 - 1) with 0. cbn [Z.leb Z.compare].
  cbn [on_tick_signals].
  destruct (on_pose_finished now' _) as [[w' evs]|]; [|reflexivity].
  now rewrite app_nil_r.
Qed.

Lemma session_budget_nonneg (ps : list Pose) :
  Forall (fun p => 1 <= seconds p) ps -> 0 <= session_budget (map seconds ps).
Proof.
  induction 1 as [|p l Hp _ IH]; [cbn; lia|].
  cbn [map session_budget fold_right].
  fold (session_budget (map seconds l)). lia.
Qed.

Lemma run_cons_some (times : Z * Z) (rest : list (Z * Z))
    (w w1 w2 : window) (evs1 evs2 : list event) :
  on_timeout hz times w = Some (w1, evs1) ->
  run hz rest w1 = Some (w2, evs2) ->
  run hz (times :: rest) w = Some (w2, evs1 ++ evs2).
Proof. intros H1 H2. cbn [run]. now rewrite H1, H2. Qed.

(** A pose under way with [r] seconds to go and the poses [later] after
    it, under paced expiries that go on long enough: the rest of the
    session. *)
Lemma run_rest_of_session (expiries : list (Z * Z)) :
  forall (w : window) (r L lo hi : Z) (later : list Pose),
    engine w = TimerEngine.mkEngine r true L true ->
    1 <= r ->
    L <= hi -> lo < L + hz -> lo <= hi ->
    chk_auto_advance w = true ->
    0 <= current_index w < Z.of_nat (List.length (poses w)) ->
    drop (Z.to_nat (current_index w + 1)) (poses w) = later ->
    Forall (fun p => 1 <= seconds p) later ->
    paced_expiries hz lo hi expiries = true ->
    L + (2 * r + 1 + session_budget (map seconds later)) * hz
    <= List.last (map fst expiries) lo ->
    exists w',
      run hz expiries w
      = Some (w',
              map emitted
                (map TimerEngine.tick_signal (TimerEngine.countdown (Z.to_nat r))
                 ++ [TimerEngine.finished_signal])
              ++ [played "over"]
              ++ concat (map pose_events (map seconds later)))
      /\ pose_info w' = "Session Complete"
      /\ current_index w' = Z.of_nat (List.length (poses w)) - 1
      /\ poses w' = poses w
      /\ engine w' = TimerEngine.mkEngine 0 false (TimerEngine._last (engine w')) false
      /\ display w' = "00:00".
Proof.
  induction expiries as [|[now now'] rest IH];
    intros w r L lo hi later Heng Hr HL Hlo Hlohi Hauto Hidx Hlater Hpos
           Hpaced Hlong.
  - cbn in Hlong. pose proof (session_budget_nonneg later Hpos). nia.
  - cbn [paced_expiries] in Hpaced.
    apply andb_prop in Hpaced as [Hpaced Hrest].
    apply andb_prop in Hpaced as [Hpaced H4].
    apply andb_prop in Hpaced as [Hpaced H3].
    apply andb_prop in Hpaced as [H1 H2].
    apply Z.leb_le in H1, H3. apply Z.ltb_lt in H2, H4.
    cbn [map fst] in Hlong. rewrite last_cons in Hlong.
    pose proof (session_budget_nonneg later Hpos) as Hbudget.
    destruct (Z_lt_dec (now - L) hz) as [Hwait|Hsecond].
    + (* nothing yet *)
      destruct (IH w r L now now' later) as (w' & Hrun & Hrest');
        try assumption; try lia.
      exists w'. split; [|exact Hrest'].
      rewrite (run_cons_some _ _ _ _ _ _ _
                 (on_timeout_wait now now' r L w Heng ltac:(lia)) Hrun).
      reflexivity.
    + destruct (Z_le_dec 2 r) as [Hmore|Hlast].
      * (* one second less *)
        pose (w1 := update_display (r - 1)
                      (set_engine (TimerEngine.mkEngine (r - 1) true now true)
                         w)).
        destruct (IH w1 (r - 1) now now now' later) as (w' & Hrun & Hrest');
          try assumption; try reflexivity; try lia.
        exists w'. split; [|exact Hrest'].
        rewrite (run_cons_some _ _ _ _ _ _ _
                   (on_timeout_tick now now' r L w Heng ltac:(lia) Hmore) Hrun).
        rewrite (countdown_unfold r Hr). reflexivity.
      * (* the last second of the pose *)
        assert (r = 1) as -> by lia.
        pose (w1 := update_display 0
                      (set_engine (TimerEngine.mkEngine 0 false now false) w)).
        pose proof (on_timeout_finish now now' L w Heng ltac:(lia)) as Hfin.
        fold w1 in Hfin.
        destruct later as [|p later'].
        -- (* no pose left *)
           assert (Hend : Z.of_nat (List.length (poses w)) - 1
                          <= current_index w).
           { apply drop_nil_inv in Hlater. lia. }
           unfold on_pose_finished in Hfin.
           change (chk_auto_advance w1) with (chk_auto_advance w) in Hfin.
           change (current_index w1) with (current_index w) in Hfin.
           change (poses w1) with (poses w) in Hfin.
           rewrite Hauto in Hfin.
           destruct (Z.ltb_spec (current_index w)
                       (Z.of_nat (List.length (poses w)) - 1)); [lia|].
           exists (set_pose_info "Session Complete" w1). split.
           ++ rewrite (run_cons_some _ _ _ _ _ _ _ Hfin
                         (run_idle hz rest
                            (set_pose_info "Session Complete" w1) eq_refl)).
              reflexivity.
           ++ cbn. repeat split; try reflexivity. lia.
        -- (* on to the next pose *)
           assert (Hnext : current_index w + 1
                           < Z.of_nat (List.length (poses w))).
           { assert (Hlen : List.length (drop (Z.to_nat (current_index w + 1))
                                            (poses w)) = S (List.length later'))
               by now rewrite Hlater.
             rewrite length_drop in Hlen. lia. }
           assert (Hp : poses w !! Z.to_nat (current_index w + 1) = Some p).
           { rewrite <- (Nat.add_0_r (Z.to_nat (current_index w + 1))).
             rewrite <- lookup_drop, Hlater. reflexivity. }
           apply Forall_cons in Hpos as [Hp1 Hpos'].
           pose (w2 := set_current_index (current_index w + 1) w1).
           assert (Hstart : start_pose now' w2
                            = Some (set_display (seconds_to_hhmmss (seconds p))
                                      (set_engine
                                         (fst (TimerEngine.start (seconds p)
                                                 now' (engine w2)))
                                         (set_pose_info
                                            ("Pose "
                                             +:+ py_str (current_index w2 + 1))
                                            w2)),
                                    [played "pose_start";
                                     emitted
                                       (TimerEngine.tick_signal (seconds p))])).
           { apply start_pose_valid. cbn [poses current_index w2 w1
               set_current_index update_display set_display set_engine].
             rewrite py_index_nat by lia. exact Hp. }
           unfold on_pose_finished in Hfin.
           change (chk_auto_advance w1) with (chk_auto_advance w) in Hfin.
           change (current_index w1) with (current_index w) in Hfin.
           change (poses w1) with (poses w) in Hfin.
           rewrite Hauto in Hfin.
           destruct (Z.ltb_spec (current_index w)
                       (Z.of_nat (List.length (poses w)) - 1)); [|lia].
           fold w2 in Hfin. rewrite Hstart in Hfin.
           match type of Hfin with
           | _ = Some (?w3, _) =>
               destruct (IH w3 (seconds p) now' now now' later')
                 as (w' & Hrun & Hrest')
           end; try assumption; try reflexivity; try lia.
           { cbn. lia. }
           { cbn. replace (Z.to_nat (current_index w + 1 + 1))
               with (Z.to_nat (current_index w + 1) + 1)%nat by lia.
             rewrite <- drop_drop, Hlater. reflexivity. }
           { cbn [map session_budget fold_right] in Hlong.
             fold (session_budget (map seconds later')) in Hlong. nia. }
           exists w'. split.
           ++ rewrite (run_cons_some _ _ _ _ _ _ _ Hfin Hrun).
              cbn [map concat pose_events TimerEngine.countdown Z.to_nat
                   Pos.to_nat Pos.iter_op Init.Nat.add Z.of_nat app].
              rewrite <- !app_assoc. reflexivity.
           ++ exact Hrest'.
Qed.

(** X9: a session with auto-advance runs every pose to its end.  For a
    non-empty list of poses of one second or more, auto-advance on, and
    paced expiries of the timer that go on for the budget of the session,
    [start_session] and the expiries make observable exactly
    [session_start], then for each pose in order [pose_start], the ticks
    from its duration down to 0, the completion and [over]; the window
    ends on the last pose with "Session Complete", the engine stopped and
    the display on "00:00". *)
Theorem auto_session_runs_every_pose (t0 : Z) (expiries : list (Z * Z))
    (w : window) :
  poses w <> [] ->
  Forall (fun p => 1 <= seconds p) (poses w) ->
  chk_auto_advance w = true ->
  paced_expiries hz t0 t0 expiries = true ->
  t0 + session_budget (map seconds (poses w)) * hz
  <= List.last (map fst expiries) t0 ->
  exists w',
    session hz t0 expiries w
    = Some (w', session_events (map seconds (poses w)))
    /\ pose_info w' = "Session Complete"
    /\ current_index w' = Z.of_nat (List.length (poses w)) - 1
    /\ poses w' = poses w
    /\ TimerEngine.running (engine w') = false
    /\ TimerEngine.remaining (engine w') = 0
    /\ display w' = "00:00".
Proof.
  intros Hne Hpos Hauto Hpaced Hlong.
  destruct (poses w) as [|first rest] eqn:Hposes; [done|].
  apply Forall_cons in Hpos as [Hfirst Hrest].
  assert (Hstart : start_pose t0 (set_current_index 0 w)
                   = Some (set_display (seconds_to_hhmmss (seconds first))
                             (set_engine
                                (fst (TimerEngine.start (seconds first) t0
                                        (engine (set_current_index 0 w))))
                                (set_pose_info
                                   ("Pose " +:+ py_str (0 + 1))
                                   (set_current_index 0 w))),
                           [played "pose_start";
                            emitted (TimerEngine.tick_signal (seconds first))])).
  { apply (start_pose_valid t0 (set_current_index 0 w) first).
    cbn. rewrite Hposes. reflexivity. }
  unfold session, start_session. rewrite Hposes, Hstart.
  match goal with
  | |- context [run hz expiries ?w1] =>
      destruct (run_rest_of_session expiries w1 (seconds first) t0 t0 t0 rest)
        as (w' & Hrun & H1 & H2 & H3 & H4 & H5)
  end; try assumption; try reflexivity; try lia;
    try (cbn; rewrite Hposes; cbn; first [lia | reflexivity]).
  exists w'. rewrite Hrun. split.
  { unfold session_events. cbn [map concat pose_events app].
    rewrite <- !app_assoc. reflexivity. }
  cbn [poses set_display set_engine set_pose_info set_current_index] in H2, H3.
  rewrite Hposes in H2, H3. rewrite H4.
  repeat split; assumption.
Qed.

End AutoSession.

Lemma auto_session_runs_every_pose_witness :
  let w := TimerWindow.set_poses [mkPose 5; mkPose 3] TimerWindow.init in
  let expiries :=
    map (fun t => (t, t)) (TimerEngine.sampled_every 200 0 90) in
  TimerWindow.poses w <> []
  /\ TimerWindow.paced_expiries 1000 0 0 expiries = true
  /\ 0 + TimerWindow.session_budget (map seconds (TimerWindow.poses w)) * 1000
     <= List.last (map fst expiries) 0
  /\ exists w',
       TimerWindow.session 1000 0 expiries w
       = Some (w', TimerWindow.session_events [5; 3])
       /\ TimerWindow.pose_info w' = "Session Complete".
Proof.
  intros w expiries.
  assert (H0 : 0 < 1000) by lia.
  assert (H1 : TimerWindow.poses w <> []) by discriminate.
  assert (H2 : Forall (fun p => 1 <= seconds p) (TimerWindow.poses w)).
  { repeat constructor; cbn; lia. }
  assert (H3 : TimerWindow.chk_auto_advance w = true) by reflexivity.
  assert (H4 : TimerWindow.paced_expiries 1000 0 0 expiries = true)
    by (vm_compute; reflexivity).
  assert (H5 : 0 + TimerWindow.session_budget
                     (map seconds (TimerWindow.poses w)) * 1000
               <= List.last (map fst expiries) 0)
    by (vm_compute; discriminate).
  split; [exact H1|]. split; [exact H4|]. split; [exact H5|].
  destruct (auto_session_runs_every_pose 1000 H0 0 expiries w H1 H2 H3 H4 H5)
    as (w' & Hrun & Hinfo & _).
  exists w'. split; [exact Hrun|exact Hinfo].
Defined.

(** ** TimerWindow: the pose list *)

Section PoseList.

Import TimerWindow.

Variable hz : Z.






End PoseList.

(** ** Paths: what [Path(s)] and [p.name] give *)

Lemma split_slash_parts (s : string) :
  Forall (fun c => has_slash c = false) (split_slash s).
Proof.
  induction s as [|c s IH]; [repeat constructor|].
  cbn [split_slash]. destruct (is_slash c) eqn:Hc.
  - constructor; [reflexivity|exact IH].
  - destruct (split_slash s) as [|hd tl]; [repeat constructor; cbn; now rewrite Hc|].
    apply Forall_cons in IH as [Hhd Htl].
    constructor; [cbn; now rewrite Hc, Hhd|exact Htl].
Qed.

Lemma filter_parts_wf (l : list string) :
  Forall (fun c => has_slash c = false) l ->
  forallb wf_part (filter (fun c => Is_true (is_component c)) l) = true.
Proof.
  induction 1 as [|c l Hc _ IH]; [reflexivity|].
  rewrite filter_cons.
  destruct (decide (Is_true (is_component c))) as [Hcomp|_]; [|exact IH].
  cbn [forallb]. rewrite IH. unfold wf_part. rewrite Hc.
  apply Is_true_true in Hcomp. now rewrite Hcomp.
Qed.

(** The components of a string make a well-formed path. *)
Lemma parse_parts_wf (s : string) : wf_path (parse_parts s) = true.
Proof.
  unfold parse_parts.
  pose proof (filter_parts_wf _ (split_slash_parts s)) as Hparts.
  destruct s as [|c s]; [exact Hparts|].
  destruct (is_slash c).
  - exact Hparts.
  - cbn [app].
    destruct (filter _ (split_slash (String c s))) as [|p rest] eqn:E;
      [reflexivity|].
    unfold wf_path. destruct (is_root p) eqn:Hroot; [|exact Hparts].
    cbn [forallb] in Hparts. apply andb_prop in Hparts as [Hp _].
    unfold wf_part in Hp. apply andb_prop in Hp as [Hp _].
    apply negb_true_iff in Hp.
    now rewrite (is_root_no_slash p Hp) in Hroot.
Qed.




(** ** SoundBank: further properties *)

Section BankMore.

Import SoundBank.

Variable json_dumps : json -> bytes.
Variable json_loads : bytes -> option json.






Lemma new_effects_ready (base : Path) : effects_ready (new base).
Proof.
  intros k. unfold new. cbn [_effects].
  rewrite <- elem_of_dom, dom_list_to_map_L, elem_of_list_to_set.
  reflexivity.
Qed.

Lemma set_cue_file_effects_ready fs k path b :
  effects_ready b -> effects_ready (set_cue_file fs k path b).
Proof.
  intros Hready k'. unfold set_cue_file. cbn [_effects].
  destruct (_effects b !! k) as [old|] eqn:Hk; [|apply Hready].
  assert (Hins : forall v, is_Some (<[k:=v]> (_effects b) !! k')
                           <-> k' ∈ map fst CUES).
  { intros v. rewrite lookup_insert_is_Some, <- (Hready k').
    split; [|destruct (decide (k = k')); auto].
    intros [<-|[_ H]]; [rewrite Hk; eauto|exact H]. }
  destruct path as [p|]; [destruct (exists_ fs p)|]; apply Hins.
Qed.

Lemma import_effect_effects_ready zf members target_dir st cue :
  effects_ready (snd st) ->
  effects_ready (snd (import_effect zf members target_dir st cue)).
Proof.
  intros Hready. unfold import_effect.
  destruct (dict_get members (fst cue) ≫= present_name zf); [|exact Hready].
  cbn [snd]. now apply set_cue_file_effects_ready.
Qed.

Lemma import_fold_effects_ready zf members target_dir todo :
  forall st,
    effects_ready (snd st) ->
    effects_ready (snd (fold_left (import_effect zf members target_dir) todo st)).
Proof.
  induction todo as [|cue rest IH]; intros st Hready; [exact Hready|].
  cbn [fold_left]. apply IH. now apply import_effect_effects_ready.
Qed.

Lemma import_effects_ready (stamp : string) (zf : zipfile)
    (fs : filesystem) (b : bank) :
  effects_ready b ->
  effects_ready (snd (fst (import_soundbank json_loads stamp zf (fs, b)))).
Proof.
  intros Hready. unfold import_soundbank.
  destruct (zf_read zf "manifest.json") as [raw|]; [|exact Hready].
  destruct (json_loads raw) as [manifest|]; [|exact Hready].
  destruct CUES_unfold as (cue & rest & Hcues).
  destruct manifest as [| | | | |members]; try exact Hready.
  unfold py_get. cbn [snd].
  destruct (dict_get members "cues") as [cues|].
  - destruct cues as [| | | | |ms];
      try (rewrite Hcues, import_loop_not_dict by discriminate; exact Hready).
    rewrite import_loop_dict. now apply import_fold_effects_ready.
  - rewrite import_loop_dict. now apply import_fold_effects_ready.
Qed.

Lemma play_when_ready fs b k :
  effects_ready b ->
  play fs b k = true
  <-> k ∈ map fst CUES
      /\ exists p, get_cue_file b k = Some p /\ is_Some (fs !! p).
Proof.
  intros Hready. unfold play. split.
  - destruct (_effects b !! k) as [eff|] eqn:Heff; [|discriminate].
    destruct (get_cue_file b k) as [p|]; [|discriminate].
    intros Hex. split; [apply Hready; rewrite Heff; eauto|].
    exists p. split; [reflexivity|]. now apply bool_decide_eq_true in Hex.
  - intros [Hk (p & Hp & Hex)]. apply Hready in Hk as [eff Heff].
    rewrite Heff, Hp. now apply bool_decide_eq_true.
Qed.

(** X12: a bank made by [__init__] has a sound effect for each of the six
    cues and for no other key, and [set_cue_file], [import_soundbank] and
    [stop_recording] keep it so; on such a bank [play] triggers a sound
    exactly when the key is one of the six cues and the file registered
    for it is on disk.  For any other key it stays silent, even with a
    file registered under that key. *)
Theorem play_triggers_exactly_when (fs : filesystem) (b : bank) (k : string) :
  effects_ready b ->
  (play fs b k = true
   <-> k ∈ map fst CUES
       /\ exists p, get_cue_file b k = Some p /\ is_Some (fs !! p))
  /\ (forall base, effects_ready (new base))
  /\ (forall fs' k' path, effects_ready (set_cue_file fs' k' path b))
  /\ (forall stamp zf fs',
        effects_ready
          (snd (fst (import_soundbank json_loads stamp zf (fs', b)))))
  /\ (forall fs' r,
        effects_ready (snd (RecorderController.stop_recording fs' b r))).
Proof.
  intros Hready. split; [now apply play_when_ready|].
  split; [apply new_effects_ready|].
  split; [intros; now apply set_cue_file_effects_ready|].
  split; [intros; now apply import_effects_ready|].
  intros fs' r. unfold RecorderController.stop_recording.
  destruct (exists_ fs' _); [|exact Hready].
  cbn [snd]. now apply set_cue_file_effects_ready.
Qed.

(** X13: registering and reading back.  After [set_cue_file] the key
    holds the path given ([None] clears it) and every other key what it
    held; on a bank with its six effects, the cue then plays exactly when
    it is one of the six and the path given is a file on disk. *)
Theorem set_then_get_and_play (fs : filesystem) (b : bank)
    (k k' : string) (path : option Path) :
  effects_ready b ->
  get_cue_file (set_cue_file fs k path b) k'
  = (if decide (k = k') then path else get_cue_file b k')
  /\ base_dir (set_cue_file fs k path b) = base_dir b
  /\ (play fs (set_cue_file fs k path b) k = true
      <-> k ∈ map fst CUES /\ exists p, path = Some p /\ is_Some (fs !! p)).
Proof.
  intros Hready.
  assert (Hget : forall j,
            get_cue_file (set_cue_file fs k path b) j
            = if decide (k = j) then path else get_cue_file b j).
  { intros j. unfold get_cue_file, set_cue_file. cbn [cue_files].
    rewrite lookup_insert. now destruct (decide (k = j)). }
  split; [apply Hget|]. split; [reflexivity|].
  rewrite (play_when_ready fs _ k (set_cue_file_effects_ready fs k path b Hready)).
  rewrite Hget. destruct (decide (k = k)); [|done]. reflexivity.
Qed.


Lemma exported_names_apart fs b (todo : list (string * string)) :
  NoDup (map fst todo) ->
  (forall cue, cue ∈ todo -> fst cue ∈ map fst CUES) ->
  NoDup (map fst (omap (fun cue => arc_entry fs b (fst cue)) todo)).
Proof.
  induction todo as [|cue rest IH]; intros Hnodup Hkeys; [constructor|].
  cbn [map] in Hnodup. apply NoDup_cons in Hnodup as [Hfresh Hnodup].
  assert (IH' : NoDup (map fst (omap (fun c => arc_entry fs b (fst c)) rest))).
  { apply IH; [exact Hnodup|]. intros c Hc. apply Hkeys. now right. }
  cbn [omap list_omap].
  destruct (arc_entry fs b (fst cue)) as [[arc_name data]|] eqn:E; [|exact IH'].
  cbn [map fst]. apply NoDup_cons. split; [|exact IH'].
  intros Hin. apply list_elem_of_fmap in Hin as ([a d] & Ha & Hin).
  cbn [fst] in Ha. subst a.
  apply list_elem_of_omap in Hin as (c & Hc & Hentry).
  destruct (arc_entry_apart fs b (fst cue) (fst c) arc_name data d) as [Heq _];
    [apply Hkeys; now left|apply Hkeys; now right|exact E|exact Hentry|].
  apply Hfresh. rewrite Heq. apply list_elem_of_fmap. eauto.
Qed.

(** X15: the exported container never holds two entries under one name:
    the archive names of the cues differ from each other and from
    ["manifest.json"], whatever files are registered. *)
Theorem export_names_are_distinct (fs : filesystem) (b : bank) :
  NoDup (namelist (export_soundbank json_dumps fs b)).
Proof.
  rewrite export_soundbank_eq. unfold namelist. rewrite map_app.
  apply NoDup_app. split; [|split].
  - apply exported_names_apart; [apply NoDup_cue_keys|].
    intros cue Hcue. apply list_elem_of_fmap. eauto.
  - intros name Hin Hman. cbn in Hman.
    apply list_elem_of_singleton in Hman. subst name.
    apply list_elem_of_fmap in Hin as ([a d] & Ha & Hin). cbn [fst] in Ha.
    subst a. apply list_elem_of_omap in Hin as (cue & Hcue & Hentry).
    destruct (arc_entry_shape _ _ _ _ _ Hentry) as (src & _ & _ & Harc).
    refine (arc_name_not_manifest (fst cue) (str_lower (path_suffix src)) _ _).
    + apply list_elem_of_fmap. eauto.
    + now symmetry.
  - cbn. apply NoDup_singleton.
Qed.

End BankMore.

Lemma play_triggers_exactly_when_witness :
  SoundBank.effects_ready (SoundBank.new ["/"; "home"; "u"; "sounds"])
  /\ ~ (SoundBank.play ∅ (SoundBank.new ["/"; "home"; "u"; "sounds"]) "over"
        = true).
Proof.
  pose proof (new_effects_ready ["/"; "home"; "u"; "sounds"]) as Hready.
  split; [exact Hready|].
  intros Hplay.
  apply (proj1 (play_triggers_exactly_when Codec.json_loads ∅ _ "over" Hready))
    in Hplay.
  destruct Hplay as [_ (p & Hp & _)]. discriminate Hp.
Defined.

Lemma set_then_get_and_play_witness :
  let b := SoundBank.new ["/"; "home"; "u"; "sounds"] in
  let rec := ["/"; "home"; "u"; "sounds"; "over_1.wav"] in
  SoundBank.effects_ready b
  /\ SoundBank.get_cue_file
       (SoundBank.set_cue_file ∅ "over" (Some rec) b) "over"
     = Some rec.
Proof.
  intros b rec.
  pose proof (new_effects_ready ["/"; "home"; "u"; "sounds"]) as Hready.
  split; [exact Hready|].
  exact (proj1 (set_then_get_and_play ∅ b "over" "over" (Some rec) Hready)).
Defined.


(** ** Suffixes *)

Lemma string_length_app (a b : string) :
  String.length (a +:+ b) = (String.length a + String.length b)%nat.
Proof.
  induction a as [|c a IH]; [reflexivity|].
  change (S (String.length (a +:+ b))
          = S (String.length a + String.length b)).
  now rewrite IH.
Qed.

Lemma string_drop_app (a b : string) : string_drop (String.length a) (a +:+ b) = b.
Proof. induction a as [|c a IH]; [reflexivity|]. exact IH. Qed.

Lemma string_drop_length (n : nat) :
  forall s, (n <= String.length s)%nat ->
            String.length (string_drop n s) = (String.length s - n)%nat.
Proof.
  induction n as [|n IH]; intros s Hn; [cbn; lia|].
  destruct s as [|c s]; [cbn in Hn; lia|]. cbn in *. apply IH. lia.
Qed.

Lemma string_take_nonempty (n : nat) (s : string) :
  (0 < n)%nat -> s <> "" -> string_take n s <> "".
Proof. intros Hn Hs. destruct n; [lia|]. now destruct s. Qed.

Lemma has_slash_take (n : nat) :
  forall s, has_slash s = false -> has_slash (string_take n s) = false.
Proof.
  induction n as [|n IH]; intros s Hs; [reflexivity|].
  destruct s as [|c s]; [reflexivity|].
  cbn [has_slash] in Hs. apply orb_false_elim in Hs as [Hc Hs].
  cbn [string_take has_slash]. now rewrite Hc, IH.
Qed.

Lemma string_take_drop (n : nat) :
  forall s, string_take n s +:+ string_drop n s = s.
Proof.
  induction n as [|n IH]; intros s; [reflexivity|].
  destruct s as [|c s]; [reflexivity|].
  change (String c (string_take n s +:+ string_drop n s) = String c s).
  now rewrite IH.
Qed.

Lemma string_take_all (s : string) : string_take (String.length s) s = s.
Proof.
  induction s as [|c s IH]; [reflexivity|].
  change (String c (string_take (String.length s) s) = String c s).
  now rewrite IH.
Qed.

Lemma string_app_nil_r (s : string) : s +:+ "" = s.
Proof.
  induction s as [|c s IH]; [reflexivity|].
  change (String c (s +:+ "") = String c s). now rewrite IH.
Qed.

(** The last dot of a text that ends in a dot and a word without one. *)
Lemma rfind_dot_app (a word : string) :
  rfind_dot word = None ->
  rfind_dot (a +:+ String "." word) = Some (String.length a).
Proof.
  intros Hword. induction a as [|c a IH].
  - change ("" +:+ String "." word) with (String "." word).
    cbn [rfind_dot]. now rewrite Hword.
  - change (rfind_dot (String c (a +:+ String "." word))
            = Some (S (String.length a))).
    cbn [rfind_dot]. now rewrite IH.
Qed.

Lemma path_name_snoc (q : Path) (x : string) :
  is_root x = false -> path_name (q ++ [x]) = x.
Proof.
  intros Hx. unfold path_name. destruct q as [|c q]; cbn [app].
  - now rewrite Hx.
  - destruct (q ++ [x]) as [|c' q'] eqn:E; [now destruct q|].
    rewrite <- E, last_cons. apply last_last.
Qed.

(** A name that is a non-empty stem, a dot and a word without a dot has
    the dot and the word for its suffix. *)
Lemma path_suffix_snoc (q : Path) (stem word : string) :
  stem <> "" -> word <> "" -> rfind_dot word = None ->
  has_slash (stem +:+ String "." word) = false ->
  path_suffix (q ++ [stem +:+ String "." word]) = String "." word.
Proof.
  intros Hstem Hword Hdot Hslash. unfold path_suffix.
  rewrite (path_name_snoc q _ (is_root_no_slash _ Hslash)).
  rewrite (rfind_dot_app stem word Hdot), string_length_app.
  assert (0 < String.length stem)%nat by (destruct stem; [done|cbn; lia]).
  assert (0 < String.length word)%nat by (destruct word; [done|cbn; lia]).
  destruct (Nat.ltb_spec 0 (String.length stem)); [|lia].
  cbn [String.length].
  destruct (Nat.ltb_spec (String.length stem)
              (String.length stem + S (String.length word) - 1)); [|lia].
  cbn [andb]. apply string_drop_app.
Qed.

(** A name is its stem followed by its suffix. *)
Lemma stem_and_suffix (p : Path) :
  path_name p
  = string_take (String.length (path_name p)
                 - String.length (path_suffix p)) (path_name p)
    +:+ path_suffix p.
Proof.
  assert (Hnone : path_name p
                  = string_take (String.length (path_name p) - 0) (path_name p)
                    +:+ "").
  { now rewrite Nat.sub_0_r, string_take_all, string_app_nil_r. }
  unfold path_suffix. destruct (rfind_dot (path_name p)) as [i|];
    [|exact Hnone].
  destruct (Nat.ltb_spec 0 i); cbn [andb]; [|exact Hnone].
  destruct (Nat.ltb_spec i (String.length (path_name p) - 1));
    [|exact Hnone].
  rewrite string_drop_length by lia.
  replace (String.length (path_name p) - (String.length (path_name p) - i))%nat
    with i by lia.
  now rewrite string_take_drop.
Qed.



(** ** Saving and recording *)

Section SaveAndRecord.

Import SoundBank.

Variable json_dumps : json -> bytes.

(** The stem [with_suffix] keeps is not empty and has no slash. *)
Lemma with_suffix_stem (p : Path) :
  wf_path p = true -> path_name p <> "" ->
  let stem := string_take (String.length (path_name p)
                           - String.length (path_suffix p)) (path_name p) in
  stem <> "" /\ has_slash stem = false.
Proof.
  intros Hwf Hname stem. split.
  - apply string_take_nonempty; [|exact Hname].
    unfold path_suffix. destruct (rfind_dot (path_name p)) as [i|].
    + destruct (Nat.ltb_spec 0 i); cbn [andb].
      * destruct (Nat.ltb_spec i (String.length (path_name p) - 1));
          [rewrite string_drop_length by lia; lia|].
        cbn. destruct (path_name p); [done|cbn; lia].
      * cbn. destruct (path_name p); [done|cbn; lia].
    + cbn. destruct (path_name p); [done|cbn; lia].
  - apply has_slash_take. now apply path_name_no_slash.
Qed.

(** X16: [save_soundbank] writes nothing when the dialog is cancelled,
    and otherwise writes the exported container to a file whose suffix is
    [.soundbank] whatever was typed: the file lies where the typed one
    would, and its name is the typed name with its suffix replaced, or
    with [.soundbank] added when it had none.  Only a typed path without
    a name (the root) makes it raise. *)
Theorem save_puts_soundbank_suffix (fp : string) (fs : filesystem) (b : bank) :
  match TimerWindow.save_soundbank json_dumps fp fs b with
  | inr None => fp = ""
  | inr (Some (out_path, zf)) =>
      fp <> ""
      /\ zf = export_soundbank json_dumps fs b
      /\ path_suffix out_path = ".soundbank"
      /\ removelast out_path = removelast (parse_parts fp)
      /\ exists stem,
           stem <> ""
           /\ path_name out_path = stem +:+ ".soundbank"
           /\ path_name (parse_parts fp)
              = stem +:+ path_suffix (parse_parts fp)
  | inl _ => fp <> "" /\ path_name (parse_parts fp) = ""
  end.
Proof.
  unfold TimerWindow.save_soundbank.
  destruct (String.eqb_spec fp "") as [Hfp|Hfp]; [exact Hfp|].
  unfold export_path, with_suffix.
  change (negb (valid_suffix ("." +:+ SOUNDBANK_EXT))) with false.
  cbv iota.
  destruct (String.eqb_spec (path_name (parse_parts fp)) "") as [Hname|Hname];
    [now split|].
  destruct (with_suffix_stem (parse_parts fp) (parse_parts_wf fp) Hname)
    as [Hstem Hslash].
  set (stem := string_take _ _) in *.
  assert (Hnew : has_slash (stem +:+ String "." "soundbank") = false).
  { rewrite has_slash_app, Hslash. reflexivity. }
  split; [exact Hfp|]. split; [reflexivity|]. split; [|split; [|exists stem]].
  - apply (path_suffix_snoc _ stem "soundbank"); [exact Hstem|done|done|].
    exact Hnew.
  - now rewrite removelast_last.
  - split; [exact Hstem|]. split.
    + apply path_name_snoc. now apply is_root_no_slash.
    + subst stem. apply stem_and_suffix.
Qed.

(** X17: [stop_recording] puts the buttons back and then either
    registers the recorded file, if it is on disk, for the cue that is
    selected when the recording stops, leaving every other cue alone, or
    reports "Recording failed." and leaves the bank as it was. *)
Theorem stop_recording_registers_or_reports (fs : filesystem) (b : bank)
    (r : RecorderController.recorder) :
  let res := RecorderController.stop_recording fs b r in
  RecorderController.btn_record_enabled (fst res) = true
  /\ RecorderController.btn_stop_enabled (fst res) = false
  /\ RecorderController.cue_combo (fst res) = RecorderController.cue_combo r
  /\ ((is_Some (fs !! RecorderController.output_location r)
       /\ RecorderController.status (fst res)
          = "Saved: " +:+ path_name (RecorderController.output_location r)
       /\ get_cue_file (snd res) (RecorderController.cue_combo r)
          = Some (RecorderController.output_location r)
       /\ forall k, k <> RecorderController.cue_combo r ->
                    get_cue_file (snd res) k = get_cue_file b k)
      \/ (fs !! RecorderController.output_location r = None
          /\ RecorderController.status (fst res) = "Recording failed."
          /\ snd res = b)).
Proof.
  intros res. subst res. unfold RecorderController.stop_recording, exists_.
  destruct (fs !! RecorderController.output_location r) as [data|] eqn:E.
  - rewrite bool_decide_eq_true_2 by eauto. cbn [fst snd].
    repeat split; try reflexivity. left. split; [eauto|].
    split; [reflexivity|].
    unfold get_cue_file, set_cue_file. cbn [cue_files]. split.
    + now rewrite lookup_insert_eq.
    + intros k Hk. now rewrite lookup_insert_ne.
  - rewrite bool_decide_eq_false_2 by (intros [? ?]; discriminate).
    cbn [fst snd]. repeat split; try reflexivity. right. auto.
Qed.




End SaveAndRecord.

